(** * parts-table: the parts matrix and the selection registries

    A shallow embedding of [PartsTableComponent]
    (src/parts-table/parts-table.component.ts).

    Part records are JavaScript objects that the component mutates in place
    ([p.qty = ...], [p.isExcluded = true]) while the same objects stay
    referenced from the caller's catalog and from the matrix cells.  Parts
    are therefore modelled as locations into an object store ([heap]); part
    lists are lists of locations.  The two registries are [Map]s with string
    keys and are modelled as [gmap string _].  [partsMatrix] and its rows are
    plain objects whose key ORDER is observed through [Object.keys]; they are
    modelled as insertion-ordered association lists ([jsobj]).

    A property read on [partsMatrix] or on one of its rows that finds no own
    key is answered by the prototype chain.  The builder follows such a read
    where the language fixes the outcome (a [TypeError]) and stops with the
    completion [Unmodelled] where the source goes on to write to a built-in
    object.  Statements about what a build produces carry the hypothesis
    [safe_catalog], under which no such read occurs.  A call starts with
    [Object.prototype] and the built-in functions as the language defines
    them, which a call that ends [Normal] or with a [TypeError] leaves so.

    Modelling assumptions, stated once:
    - a quantity is a JavaScript [number] that is only stored and copied,
      never computed with; it is modelled as [Z];
    - [Array.prototype.sort] is stable, as ECMAScript 2019 requires. *)

From stdpp Require Import gmap strings list fin_maps sorting.
From Stdlib Require Import ZArith Lia Ascii.

Open Scope string_scope.
Open Scope list_scope.
Open Scope Z_scope.

(** ** Records *)

Definition loc := nat.

(** Modelled from the spec: the [Part] interface (interfaces/part.interface is
    not part of the sources).  A part is identified by [partNumber] and [sOS]
    and carries an optional [isExcluded] flag and a mutable, optional
    quantity. *)
Record Part := mkPart {
  partNumber : string;
  sOS : string;
  isExcluded : option bool;
  qty : option Z
}.

(** Modelled from the spec: [CategorizedPart], the part's fields together with
    the owning category id and repair-type id; this is the shape of the
    literal [{ categoryId, torId, ...p }]. *)
Record CategorizedPart := mkCategorizedPart {
  cpCategoryId : string;
  cpTorId : string;
  cpPart : Part
}.

(** Modelled from the spec: [TOR] and [SNRCategory]
    (interfaces/serial-number-range.interface).  [repairTypes] may be absent;
    [createPartsMatrix] tests for it. *)
Record TOR := mkTOR {
  torId : string;
  torTitle : string;
  partsIncluded : list loc;
  partsExcluded : list loc
}.

Record SNRCategory := mkCategory {
  categoryId : string;
  categoryTitle : string;
  repairTypes : option (list TOR)
}.

(** The object store: every location holds a part record. *)
Definition heap := loc → Part.

Definition store (l : loc) (p : Part) (h : heap) : heap :=
  fun l' => if decide (l' = l) then p else h l'.

Definition set_qty (q : option Z) (p : Part) : Part :=
  mkPart (partNumber p) (sOS p) (isExcluded p) q.

Definition set_isExcluded (b : option bool) (p : Part) : Part :=
  mkPart (partNumber p) (sOS p) b (qty p).

Definition cp_set_qty (q : option Z) (e : CategorizedPart) : CategorizedPart :=
  mkCategorizedPart (cpCategoryId e) (cpTorId e) (set_qty q (cpPart e)).

(** ** Plain objects with observable key order *)

(** A matrix cell, [DividedParts<Part>]; the literal [{}] has neither field. *)
Record Cell := mkCell {
  included : option (list loc);
  excluded : option (list loc)
}.

(** An object literal used as a dictionary: own string keys in creation
    order, each key at most once. *)
Definition jsobj (A : Type) := list (string * A).

Fixpoint obj_get {A} (o : jsobj A) (k : string) : option A :=
  match o with
  | [] => None
  | (k', v) :: o' => if decide (k' = k) then Some v else obj_get o' k
  end.

(** [o[k] = v]: an existing key keeps its position, a new key goes last. *)
Fixpoint obj_set {A} (o : jsobj A) (k : string) (v : A) : jsobj A :=
  match o with
  | [] => [(k, v)]
  | (k', v') :: o' =>
      if decide (k' = k) then (k', v) :: o' else (k', v') :: obj_set o' k v
  end.

(** ** The component *)

Record Component := mkComponent {
  categories : option (list SNRCategory);
  partsPrices : list CategorizedPart;
  uKeyPrefix : string;
  torColumns : option (list string);
  partsMatrix : option (jsobj (jsobj Cell));
  selectedParts : gmap string CategorizedPart;
  checkedParts : gmap string CategorizedPart;
  categoriesById : gmap string (string * string);
  torsById : gmap string (string * string)
}.

Definition set_selectedParts (m : gmap string CategorizedPart) (c : Component) :=
  mkComponent (categories c) (partsPrices c) (uKeyPrefix c) (torColumns c)
    (partsMatrix c) m (checkedParts c) (categoriesById c) (torsById c).

Definition set_checkedParts (m : gmap string CategorizedPart) (c : Component) :=
  mkComponent (categories c) (partsPrices c) (uKeyPrefix c) (torColumns c)
    (partsMatrix c) (selectedParts c) m (categoriesById c) (torsById c).

Definition set_torColumns (t : option (list string)) (c : Component) :=
  mkComponent (categories c) (partsPrices c) (uKeyPrefix c) t
    (partsMatrix c) (selectedParts c) (checkedParts c) (categoriesById c)
    (torsById c).

Definition set_partsMatrix (m : option (jsobj (jsobj Cell))) (c : Component) :=
  mkComponent (categories c) (partsPrices c) (uKeyPrefix c) (torColumns c)
    m (selectedParts c) (checkedParts c) (categoriesById c) (torsById c).

Definition set_categoriesById (m : gmap string (string * string)) (c : Component) :=
  mkComponent (categories c) (partsPrices c) (uKeyPrefix c) (torColumns c)
    (partsMatrix c) (selectedParts c) (checkedParts c) m (torsById c).

Definition set_torsById (m : gmap string (string * string)) (c : Component) :=
  mkComponent (categories c) (partsPrices c) (uKeyPrefix c) (torColumns c)
    (partsMatrix c) (selectedParts c) (checkedParts c) (categoriesById c) m.

(** [getUKey]: the template string
    [`${uKeyPrefix}_${categoryId}_${torId}_${part.partNumber}_${part.sOS}`]. *)
Definition getUKey (c : Component) (cat tor : string) (p : Part) : string :=
  uKeyPrefix c +:+ "_" +:+ cat +:+ "_" +:+ tor +:+ "_" +:+ partNumber p
    +:+ "_" +:+ sOS p.

Definition isSelected (c : Component) (h : heap) (category : SNRCategory)
    (tor : string) (l : loc) : bool :=
  bool_decide (is_Some (selectedParts c !! getUKey c (categoryId category) tor (h l))).

Definition isChecked (c : Component) (h : heap) (category : SNRCategory)
    (tor : string) (l : loc) : bool :=
  bool_decide (is_Some (checkedParts c !! getUKey c (categoryId category) tor (h l))).

Definition getCheckedPart (c : Component) (h : heap) (category : SNRCategory)
    (tor : string) (l : loc) : option CategorizedPart :=
  checkedParts c !! getUKey c (categoryId category) tor (h l).

Definition clearChecked (c : Component) : Component :=
  set_checkedParts ∅ c.

Definition clearSelections (c : Component) : Component :=
  clearChecked (set_selectedParts ∅ c).

(** [qtyChanged]: the registry entries are objects created by
    [updateSelectedParts] and referenced from the map only, so the in-place
    [val.qty = qty] is a map over the values. *)
Definition qtyChanged (q : Z) (c : Component) : Component :=
  let c := clearChecked c in
  set_selectedParts (cp_set_qty (Some q) <$> selectedParts c) c.

(** One iteration of the [forEach] in [updateSelectedParts]. *)
Definition selectPart (cat tor : string) (checked : bool)
    (s : Component * heap) (l : loc) : Component * heap :=
  let '(c, h) := s in
  let uKey := getUKey c cat tor (h l) in
  let selectedPreviouslyPart := selectedParts c !! uKey in
  if checked then
    let q := match selectedPreviouslyPart with
             | Some prev => qty (cpPart prev)
             | None => Some 1
             end in
    let p := set_qty q (h l) in
    (set_selectedParts (<[uKey := mkCategorizedPart cat tor p]> (selectedParts c)) c,
     store l p h)
  else
    (set_selectedParts (delete uKey (selectedParts c)) c, h).

Definition updateSelectedParts (parts : list loc) (cat tor : string)
    (checked : bool) (s : Component * heap) : Component * heap :=
  fold_left (selectPart cat tor checked) parts s.

(** [isAllPartsInCategorySelected]; [None] is the [TypeError] of calling
    [.map] on an absent [repairTypes]. *)
Definition isAllPartsInCategorySelected (c : Component) (h : heap)
    (category : SNRCategory) : option bool :=
  match repairTypes category with
  | None => None
  | Some tors =>
      Some (forallb (fun b : bool => b)
        (map (fun tor =>
                forallb (fun l => bool_decide (is_Some
                           (selectedParts c !! getUKey c (categoryId category) (torId tor) (h l))))
                  (partsIncluded tor ++ partsExcluded tor))
           tors))
  end.

(** [changeSelectionOnPartsInCategory] with the [categorySelection] input
    passed explicitly; [None] as above. *)
Definition changeSelectionOnPartsInCategory (checked : bool)
    (category : SNRCategory) (s : Component * heap) : option (Component * heap) :=
  match repairTypes category with
  | None => None
  | Some tors =>
      Some (fold_left (fun s tor =>
              updateSelectedParts (partsIncluded tor ++ partsExcluded tor)
                (categoryId category) (torId tor) checked s) tors s)
  end.

(** [onPartSelectionChanged]: the part is toggled together with the parts
    of its repair-type handed over by the template; the emitted event carries
    [categoryChecked], returned here next to the new state. *)
Definition onPartSelectionChanged (checked : bool) (category : SNRCategory)
    (tor : string) (part : loc) (allPartsForSelectedTOR : list loc * list loc)
    (s : Component * heap) : (Component * heap) * option bool :=
  let parts := allPartsForSelectedTOR.1 ++ allPartsForSelectedTOR.2 in
  let s' := updateSelectedParts (part :: parts) (categoryId category) tor checked s in
  (s', isAllPartsInCategorySelected s'.1 s'.2 category).

(** [updatePricesInfo]. *)
Definition updatePricesInfo (c : Component) : Component :=
  fold_left (fun c p =>
      set_checkedParts
        (<[getUKey c (cpCategoryId p) (cpTorId p) (cpPart p) := p]> (checkedParts c)) c)
    (partsPrices c) (set_checkedParts ∅ c).

(** ** [Object.keys] and [Array.prototype.sort] *)

Definition digit_of (a : ascii) : option N :=
  let n := N_of_ascii a in
  if ((48 <=? n) && (n <=? 57))%N then Some (n - 48)%N else None.

Fixpoint digits_value (s : string) (acc : N) : option N :=
  match s with
  | EmptyString => Some acc
  | String a s' =>
      match digit_of a with
      | Some d => digits_value s' (10 * acc + d)%N
      | None => None
      end
  end.

(** A property name is an array index when it is the canonical decimal
    numeral of an integer below [2^32 - 1]. *)
Definition array_index (s : string) : option N :=
  match s with
  | EmptyString => None
  | String a s' =>
      if decide (a = "0"%char) then
        if decide (s' = EmptyString) then Some 0%N else None
      else
        match digits_value s 0 with
        | Some n => if (n <? 2 ^ 32 - 1)%N then Some n else None
        | None => None
        end
  end.

(** Stable sort with a JavaScript comparator: [x] is placed before the first
    [y] with [cmp x y <= 0], elements are inserted from the right
    ([Array.prototype.sort] is stable since ECMAScript 2019). *)
Fixpoint js_insert {A} (cmp : A → A → Z) (x : A) (l : list A) : list A :=
  match l with
  | [] => [x]
  | y :: l' => if (cmp x y <=? 0)%Z then x :: y :: l' else y :: js_insert cmp x l'
  end.

Fixpoint js_sort {A} (cmp : A → A → Z) (l : list A) : list A :=
  match l with
  | [] => []
  | x :: l' => js_insert cmp x (js_sort cmp l')
  end.

(** Own keys of an ordinary object: array indices in ascending numeric
    order, then the other strings in creation order. *)
Definition index_keys (ks : list string) : list (N * string) :=
  omap (fun k => (fun n => (n, k)) <$> array_index k) ks.

Definition Object_keys {A} (o : jsobj A) : list string :=
  let ks := o.*1 in
  (js_sort (fun a b => Z.of_N a.1 - Z.of_N b.1) (index_keys ks)).*2
    ++ filter (fun k => array_index k = None) ks.

(** ** The matrix builder *)

Definition emptyCell : Cell := mkCell None None.

(** [partsExcluded.map(p => { p.isExcluded = true; return p; })]: the
    result holds the same objects; the store is updated. *)
Definition markExcluded (ls : list loc) (h : heap) : list loc * heap :=
  (ls, fold_left (fun h l => store l (set_isExcluded (Some true) (h l)) h) ls h).

(** How a call ends: it returns, it throws a [TypeError], or it leaves the
    embedding (the source goes on to read or write a built-in object, which
    may end in a [TypeError] as well). *)
Inductive Completion := Normal | TypeError | Unmodelled.

(** The property names a plain object inherits from [Object.prototype]
    (Annex B included).  All of them hold a function, except [__proto__],
    an accessor. *)
Definition inherited_names : list string :=
  ["constructor"; "hasOwnProperty"; "isPrototypeOf"; "propertyIsEnumerable";
   "toLocaleString"; "toString"; "valueOf"; "__proto__"; "__defineGetter__";
   "__defineSetter__"; "__lookupGetter__"; "__lookupSetter__"].

Definition inherited_name (k : string) : bool :=
  bool_decide (k ∈ inherited_names).

(** [table[k] = v] on an id table: an own key, except under [__proto__],
    where the assignment replaces the table's prototype and leaves its own
    keys as they are. *)
Definition table_set {V} (T : gmap string V) (k : string) (v : V) : gmap string V :=
  if decide (k = "__proto__") then T else <[k := v]> T.

(** [!partsMatrix[torId][categoryId]] when [partsMatrix[torId]] is answered
    by the prototype chain.  Under [__proto__] it is [Object.prototype], whose
    own [__proto__] is [null]: the assignment of [{}] to it throws.  Under the
    other names it is a built-in function, whose [name] and [length] are
    primitives that cannot be assigned to or carry a property in strict code.
    In every other case the source writes to the built-in object. *)
Definition inherited_row (tor cat : string) : Completion :=
  if decide (tor = "__proto__") then
    if decide (cat = "__proto__") then TypeError else Unmodelled
  else
    if decide (cat = "name" ∨ cat = "length") then TypeError else Unmodelled.

(** Lines 217 to 221, once the row and the cell exist under own keys.  Rows
    and cells are objects referenced from [partsMatrix]; writing through the
    reference is modelled by writing the updated row back under its key. *)
Definition writeCell (cat : string) (repairType : TOR)
    (s : jsobj (jsobj Cell) * Component * heap)
    : jsobj (jsobj Cell) * Component * heap :=
  let '(m, c, h) := s in
  let tor := torId repairType in
  let row := default [] (obj_get m tor) in
  let cell := default emptyCell (obj_get row cat) in
  let cell := mkCell (Some (partsIncluded repairType)) (excluded cell) in
  let '(ex, h) := markExcluded (partsExcluded repairType) h in
  let cell := mkCell (included cell) (Some ex) in
  (obj_set m tor (obj_set row cat cell), c, h).

(** Body of [repairTypes.forEach]. *)
Definition buildRepairType (cat : string)
    (s : jsobj (jsobj Cell) * Component * heap) (repairType : TOR)
    : Completion * (jsobj (jsobj Cell) * Component * heap) :=
  let '(m, c, h) := s in
  let tor := torId repairType in
  let c := set_torsById (table_set (torsById c) tor (tor, torTitle repairType)) c in
  match obj_get m tor with
  | None =>
      if inherited_name tor then (inherited_row tor cat, (m, c, h))
      else (Normal, writeCell cat repairType (obj_set m tor [(cat, emptyCell)], c, h))
  | Some row =>
      match obj_get row cat with
      | Some _ => (Normal, writeCell cat repairType (m, c, h))
      | None =>
          if inherited_name cat then (Unmodelled, (m, c, h))
          else (Normal,
                writeCell cat repairType (obj_set m tor (obj_set row cat emptyCell), c, h))
      end
  end.

(** [forEach] with a callback that may not return: the loop ends at the
    first call that does not. *)
Fixpoint run_each {S A} (f : S → A → Completion * S) (l : list A) (s : S)
    : Completion * S :=
  match l with
  | [] => (Normal, s)
  | x :: l' =>
      match f s x with
      | (Normal, s') => run_each f l' s'
      | r => r
      end
  end.

(** Body of [categories.forEach]. *)
Definition buildCategory (s : jsobj (jsobj Cell) * Component * heap)
    (category : SNRCategory)
    : Completion * (jsobj (jsobj Cell) * Component * heap) :=
  match repairTypes category with
  | None => (Normal, s)
  | Some rts =>
      let '(m, c, h) := s in
      let cat := categoryId category in
      let c := set_categoriesById
                 (table_set (categoriesById c) cat (cat, categoryTitle category)) c in
      run_each (buildRepairType cat) rts (m, c, h)
  end.

Definition column_items (m : jsobj (jsobj Cell)) : list (string * nat) :=
  (fun key => (key, List.length (Object_keys (default [] (obj_get m key)))))
    <$> Object_keys m.

Definition sort_columns (m : jsobj (jsobj Cell)) : list string :=
  (js_sort (fun a b => Z.of_nat b.2 - Z.of_nat a.2) (column_items m)).*1.

(** [createPartsMatrix]: the completion and the state the call leaves.  A
    call that throws leaves [partsMatrix] and [torColumns] as they were, with
    the id tables and the part records written so far; with [Unmodelled] the
    state is the one reached where the embedding stops. *)
Definition createPartsMatrix (s : Component * heap)
    : Completion * (Component * heap) :=
  let '(c, h) := s in
  match categories c with
  | None => (Normal, (set_torColumns (Some []) c, h))
  | Some cats =>
      match run_each buildCategory cats ([], c, h) with
      | (Normal, (m, c, h)) =>
          let c := set_partsMatrix (Some m) c in
          (Normal, (set_torColumns (Some (sort_columns m)) c, h))
      | (k, (m, c, h)) => (k, (c, h))
      end
  end.

Definition set_categories (cs : option (list SNRCategory)) (c : Component) :=
  mkComponent cs (partsPrices c) (uKeyPrefix c) (torColumns c)
    (partsMatrix c) (selectedParts c) (checkedParts c) (categoriesById c)
    (torsById c).

Definition set_partsPrices (ps : list CategorizedPart) (c : Component) :=
  mkComponent (categories c) ps (uKeyPrefix c) (torColumns c)
    (partsMatrix c) (selectedParts c) (checkedParts c) (categoriesById c)
    (torsById c).

(** The component as constructed: [categories = []], [partsPrices = []],
    empty registries and lookup tables, no matrix and no columns yet. *)
Definition newComponent (prefix : string) : Component :=
  mkComponent (Some []) [] prefix None None ∅ ∅ ∅ ∅.

(** Build as the spec names it: the [categories] input is bound, then
    [createPartsMatrix] runs; [Build_completion] is how the call ends and
    [Build] the state that goes with it (see [createPartsMatrix]). *)
Definition Build (cats : option (list SNRCategory)) (s : Component * heap)
    : Component * heap :=
  (createPartsMatrix (set_categories cats s.1, s.2)).2.

Definition Build_completion (cats : option (list SNRCategory))
    (s : Component * heap) : Completion :=
  (createPartsMatrix (set_categories cats s.1, s.2)).1.

(** A catalog whose categories (those with a repair-type list) and
    repair-types have ids that are not inherited property names. *)
Definition safe_category (category : SNRCategory) : bool :=
  match repairTypes category with
  | None => true
  | Some rts =>
      negb (inherited_name (categoryId category))
      && forallb (fun rt => negb (inherited_name (torId rt))) rts
  end.

Definition safe_catalog (cats : list SNRCategory) : bool :=
  forallb safe_category cats.

(** ** [ngOnChanges] and the payload of [showDetails] *)

(** Angular's [SimpleChange], reduced to what the hook reads: whether the
    input has an entry in [changes] and its [currentValue] ([None] for
    [null] or [undefined]). *)
Record SimpleChange (A : Type) := mkChange { currentValue : option A }.
Arguments mkChange {A} _.
Arguments currentValue {A} _.

Record SimpleChanges := mkChanges {
  chCategories : option (SimpleChange (list SNRCategory));
  chPartsPrices : option (SimpleChange (list CategorizedPart));
  chCategorySelection : option (SimpleChange (bool * SNRCategory))
}.

(** [changes.x && changes.x.currentValue]: arrays and objects are truthy. *)
Definition changed {A} (ch : option (SimpleChange A)) : bool :=
  match ch with
  | Some (mkChange (Some _)) => true
  | _ => false
  end.

(** [ngOnChanges].  The three steps read the component's own inputs, not
    [changes]; [categorySelection] is passed explicitly ([None] when the
    input is undefined, where the destructuring throws).  The result is
    [None] when the call has no result in the embedding: [createPartsMatrix]
    did not end [Normal], or the bulk toggle threw. *)
Definition ngOnChanges (changes : SimpleChanges)
    (categorySelection : option (bool * SNRCategory))
    (s : Component * heap) : option (Component * heap) :=
  let r := if changed (chCategories changes)
           then createPartsMatrix (clearSelections s.1, s.2) else (Normal, s) in
  match r with
  | (Normal, s) =>
      let s := if changed (chPartsPrices changes)
               then (updatePricesInfo s.1, s.2) else s in
      if changed (chCategorySelection changes) then
        match categorySelection with
        | Some (checked, category) =>
            changeSelectionOnPartsInCategory checked category s
        | None => None
        end
      else Some s
  | _ => None
  end.

(** An entry of [partsWithInfo.excluded]: [{...p, qty: 1}] is the checked
    part with quantity 1, or the bare [{ qty: 1 }] when [p] is undefined. *)
Inductive ExcludedInfo :=
  | WithInfo (p : CategorizedPart)
  | OnlyQty (q : Z).

(** [partsWithInfo] as [showDetails] assembles it; the dialog it is handed
    to, and the customer and warehouse fields, are outside the component. *)
Definition partsWithInfo (c : Component) (h : heap) (category : SNRCategory)
    (tor : string) (parts : list loc * list loc)
    : list (option CategorizedPart) * list ExcludedInfo :=
  (map (getCheckedPart c h category tor) parts.1,
   map (fun p => match p with
                 | Some p => WithInfo (cp_set_qty (Some 1) p)
                 | None => OnlyQty 1
                 end)
     (map (getCheckedPart c h category tor) parts.2)).

(** * Vocabulary of the statements *)

(** Binding the inputs, as the spec names the operations. *)
Definition ToggleParts := updateSelectedParts.
Definition SetQuantity := qtyChanged.
Definition OverlayPrices (P : list CategorizedPart) (c : Component) : Component :=
  updatePricesInfo (set_partsPrices P c).

(** The composite key of a priced part, from its own category and
    repair-type ids. *)
Definition priceKey (c : Component) (p : CategorizedPart) : string :=
  getUKey c (cpCategoryId p) (cpTorId p) (cpPart p).

(** The quantity a selection under key [k] records: the stored one when the
    key is present, 1 otherwise. *)
Definition recorded_qty (m : gmap string CategorizedPart) (k : string) : option Z :=
  match m !! k with
  | Some prev => qty (cpPart prev)
  | None => Some 1
  end.

(** Same identity: the fields a selection never writes. *)
Definition same_ident (p p' : Part) : Prop :=
  partNumber p' = partNumber p ∧ sOS p' = sOS p ∧ isExcluded p' = isExcluded p.

(** Loop invariant of the selecting [forEach]. *)
Record select_inv (cat tor : string) (parts : list loc) (c : Component) (h : heap)
    (c' : Component) (h' : heap) : Prop := {
  si_frame : c' = set_selectedParts (selectedParts c') c;
  si_ident : ∀ l, same_ident (h l) (h' l);
  si_qty_in : ∀ l, l ∈ parts →
    qty (h' l) = recorded_qty (selectedParts c) (getUKey c cat tor (h l));
  si_heap_out : ∀ l, l ∉ parts → h' l = h l;
  si_recorded : ∀ k,
    recorded_qty (selectedParts c') k = recorded_qty (selectedParts c) k;
  si_other : ∀ k, k ∉ (fun l => getUKey c cat tor (h l)) <$> parts →
    selectedParts c' !! k = selectedParts c !! k;
  si_last : ∀ pre l post, parts = pre ++ l :: post →
    getUKey c cat tor (h l) ∉ (fun l => getUKey c cat tor (h l)) <$> post →
    selectedParts c' !! getUKey c cat tor (h l)
    = Some (mkCategorizedPart cat tor
              (set_qty (recorded_qty (selectedParts c) (getUKey c cat tor (h l))) (h l)))
}.

(** The (category id, repair-type) pairs the two nested [forEach] visit, in
    order; categories without a repair-type list contribute none. *)
Definition catalog_pairs (cats : list SNRCategory) : list (string * TOR) :=
  cats ≫= (fun category =>
    match repairTypes category with
    | Some rts => (fun rt => (categoryId category, rt)) <$> rts
    | None => []
    end).

(** The cell a repair-type leaves in the matrix. *)
Definition rt_cell (rt : TOR) : Cell :=
  mkCell (Some (partsIncluded rt)) (Some (partsExcluded rt)).

(** Net effect of one [buildRepairType] on the matrix and on the store. *)
Definition matrix_step (m : jsobj (jsobj Cell)) (p : string * TOR)
    : jsobj (jsobj Cell) :=
  obj_set m (torId p.2)
    (obj_set (default [] (obj_get m (torId p.2))) p.1 (rt_cell p.2)).

Definition mark_step (h : heap) (p : string * TOR) : heap :=
  (markExcluded (partsExcluded p.2) h).2.

(** All parts listed as excluded somewhere in the catalog. *)
Definition excluded_locs (pairs : list (string * TOR)) : list loc :=
  pairs ≫= (fun p => partsExcluded p.2).

(** What a rebuild may change in the component besides the matrix and the
    columns: the two id tables, which only gain or overwrite entries. *)
Record tables_grow (c c' : Component) : Prop := {
  tg_categories : categories c' = categories c;
  tg_partsPrices : partsPrices c' = partsPrices c;
  tg_uKeyPrefix : uKeyPrefix c' = uKeyPrefix c;
  tg_torColumns : torColumns c' = torColumns c;
  tg_partsMatrix : partsMatrix c' = partsMatrix c;
  tg_selectedParts : selectedParts c' = selectedParts c;
  tg_checkedParts : checkedParts c' = checkedParts c;
  tg_categoriesById : dom (categoriesById c) ⊆ dom (categoriesById c');
  tg_torsById : dom (torsById c) ⊆ dom (torsById c')
}.

(** [partsMatrix[t][cid]], and the pairs that write that cell. *)
Definition cell_at (m : jsobj (jsobj Cell)) (t cid : string) : option Cell :=
  obj_get m t ≫= (fun row => obj_get row cid).

Definition at_cell (t cid : string) (p : string * TOR) : Prop :=
  torId p.2 = t ∧ p.1 = cid.

Global Instance at_cell_dec t cid p : Decision (at_cell t cid p).
Proof. unfold at_cell. apply _. Defined.

Definition row_of (m : jsobj (jsobj Cell)) (t : string) : jsobj Cell :=
  default [] (obj_get m t).

(** The distinct elements of a list, in the order of their first
    occurrence. *)
Fixpoint encounter_order (l : list string) : list string :=
  match l with
  | [] => []
  | x :: l' => x :: filter (fun y => y ≠ x) (encounter_order l')
  end.

(** Keys of an object after an assignment to key [k]. *)
Definition add_key (ks : list string) (k : string) : list string :=
  if decide (k ∈ ks) then ks else ks ++ [k].

(** Repair-type ids of the catalog, one per (category, repair-type) pair, in
    input order. *)
Definition tor_ids (cats : list SNRCategory) : list string :=
  (fun p => torId p.2) <$> catalog_pairs cats.

(** Number of distinct category ids under which repair-type [t] is listed. *)
Definition category_count (cats : list SNRCategory) (t : string) : nat :=
  size (list_to_set (C := gset string)
    (fst <$> filter (fun p => torId p.2 = t) (catalog_pairs cats))).

(** Numeric value of an array-index key. *)
Definition index_value (k : string) : N := default 0%N (array_index k).

(** An id without the separator character of the composite key. *)
Fixpoint no_underscore (s : string) : bool :=
  match s with
  | EmptyString => true
  | String a s' => bool_decide (a ≠ "_"%char) && no_underscore s'
  end.

(** A registry whose entries sit under their own composite key and carry a
    quantity. *)
Definition registry_ok (c : Component) : Prop :=
  ∀ k e, selectedParts c !! k = Some e →
    priceKey c e = k ∧ is_Some (qty (cpPart e)).

(** The composite keys of all parts of a category's repair-types. *)
Definition category_keys (c : Component) (h : heap) (cid : string)
    (tors : list TOR) : list string :=
  tors ≫= (fun t =>
    (fun l => getUKey c cid (torId t) (h l)) <$> (partsIncluded t ++ partsExcluded t)).

(** The loop of [changeSelectionOnPartsInCategory]. *)
Definition bulkToggle (checked : bool) (cid : string) (tors : list TOR)
    (s : Component * heap) : Component * heap :=
  fold_left (fun s tor =>
      updateSelectedParts (partsIncluded tor ++ partsExcluded tor)
        cid (torId tor) checked s) tors s.

(** The writes of the builder to the two id tables. *)
Definition tor_insert (T : gmap string (string * string)) (p : string * TOR)
    : gmap string (string * string) :=
  <[torId p.2 := (torId p.2, torTitle p.2)]> T.

Definition cat_insert (T : gmap string (string * string)) (category : SNRCategory)
    : gmap string (string * string) :=
  match repairTypes category with
  | Some _ => <[categoryId category := (categoryId category, categoryTitle category)]> T
  | None => T
  end.

(** The categories the builder does not skip. *)
Definition has_repairTypes (category : SNRCategory) : Prop :=
  is_Some (repairTypes category).

Global Instance has_repairTypes_dec category : Decision (has_repairTypes category).
Proof. unfold has_repairTypes. apply _. Defined.

(** * Properties of the selection registries *)

Section Selection.

Variables (cat tor : string).

Lemma getUKey_set_qty c q p : getUKey c cat tor (set_qty q p) = getUKey c cat tor p.
Proof. reflexivity. Qed.

Lemma getUKey_set_selectedParts m c p :
  getUKey (set_selectedParts m c) cat tor p = getUKey c cat tor p.
Proof. reflexivity. Qed.

Lemma store_eq l p h : store l p h l = p.
Proof. unfold store. by rewrite decide_True. Qed.

Lemma store_ne l l' p h : l' ≠ l → store l p h l' = h l'.
Proof. intros. unfold store. by rewrite decide_False. Qed.

Lemma updateSelectedParts_snoc parts l checked s :
  updateSelectedParts (parts ++ [l]) cat tor checked s
  = selectPart cat tor checked (updateSelectedParts parts cat tor checked s) l.
Proof. unfold updateSelectedParts. by rewrite fold_left_app. Qed.

Lemma set_qty_same_ident q p p' : same_ident p p' → set_qty q p' = set_qty q p.
Proof. intros (H1 & H2 & H3). unfold set_qty. by rewrite H1, H2, H3. Qed.

Lemma getUKey_same_ident c c' p p' :
  uKeyPrefix c' = uKeyPrefix c → same_ident p p' →
  getUKey c' cat tor p' = getUKey c cat tor p.
Proof. intros Hc (H1 & H2 & _). unfold getUKey. by rewrite Hc, H1, H2. Qed.

Lemma select_inv_holds parts c h :
  select_inv cat tor parts c h (updateSelectedParts parts cat tor true (c, h)).1
                       (updateSelectedParts parts cat tor true (c, h)).2.
Proof.
  induction parts as [|x parts IH] using rev_ind.
  - split; simpl; try done.
    + by destruct c.
    + intros l Hl. by apply elem_of_nil in Hl.
    + intros pre l post H. by destruct pre.
  - rewrite updateSelectedParts_snoc.
    destruct (updateSelectedParts parts cat tor true (c, h)) as [c1 h1].
    simpl in IH. destruct IH as [Hf Hi Hq Ho Hr Hk Hl].
    assert (Hp : uKeyPrefix c1 = uKeyPrefix c) by (by rewrite Hf).
    assert (Hkey : getUKey c1 cat tor (h1 x) = getUKey c cat tor (h x))
      by (by apply getUKey_same_ident).
    unfold selectPart. rewrite Hkey.
    set (k := getUKey c cat tor (h x)).
    change (match selectedParts c1 !! k with
            | Some prev => qty (cpPart prev) | None => Some 1 end)
      with (recorded_qty (selectedParts c1) k).
    rewrite Hr. simpl.
    split; simpl.
    + rewrite Hf at 2. by destruct c.
    + intros l. unfold store. case_decide as E; [subst l|apply Hi].
      destruct (Hi x) as (?&?&?). by repeat split.
    + intros l Hin. unfold store. case_decide as E; [by subst l|].
      apply Hq. apply elem_of_app in Hin as [Hin|Hin]; [done|].
      apply list_elem_of_singleton in Hin. congruence.
    + intros l Hin. rewrite store_ne by set_solver. apply Ho. set_solver.
    + intros k'. unfold recorded_qty at 1.
      destruct (decide (k = k')) as [<-|Hne].
      * by rewrite lookup_insert_eq.
      * rewrite lookup_insert_ne by done. apply Hr.
    + intros k'. rewrite fmap_app, not_elem_of_app. simpl.
      intros [H1 H2]. rewrite lookup_insert_ne by set_solver. by apply Hk.
    + intros pre l post Heq Hnot.
      destruct (decide (post = [])) as [->|Hpost].
      * apply app_inj_tail in Heq as [-> ->].
        fold k. rewrite lookup_insert_eq. f_equal. f_equal.
        by apply set_qty_same_ident.
      * destruct (exists_last Hpost) as (post' & y & ->).
        rewrite app_comm_cons, app_assoc in Heq.
        apply app_inj_tail in Heq as [-> ->].
        rewrite fmap_app, not_elem_of_app in Hnot. destruct Hnot as [Hn1 Hn2].
        rewrite lookup_insert_ne by set_solver.
        by apply (Hl pre l post').
Qed.

(** What the iteration for one more part does to the registry. *)
Lemma select_step parts l c h :
  let before := selectedParts (updateSelectedParts parts cat tor true (c, h)).1 in
  let k := getUKey c cat tor (h l) in
  selectedParts (updateSelectedParts (parts ++ [l]) cat tor true (c, h)).1
  = <[k := mkCategorizedPart cat tor (set_qty (recorded_qty before k) (h l))]> before.
Proof.
  pose proof (select_inv_holds parts c h) as [Hf Hi _ _ _ _ _].
  rewrite updateSelectedParts_snoc.
  destruct (updateSelectedParts parts cat tor true (c, h)) as [c1 h1].
  simpl in Hf, Hi. simpl.
  assert (Hp : uKeyPrefix c1 = uKeyPrefix c) by (by rewrite Hf).
  rewrite (getUKey_same_ident c c1 (h l) (h1 l) Hp (Hi l)).
  by rewrite (set_qty_same_ident _ (h l) (h1 l) (Hi l)).
Qed.

(** The deselecting [forEach] removes the keys and writes no part. *)
Lemma deselect_holds parts c h :
  let s' := updateSelectedParts parts cat tor false (c, h) in
  s'.2 = h ∧
  s'.1 = set_selectedParts
           (foldr delete (selectedParts c)
              ((fun l => getUKey c cat tor (h l)) <$> reverse parts)) c.
Proof.
  induction parts as [|x parts IH] using rev_ind.
  - simpl. split; [done|by destruct c].
  - simpl in *. rewrite updateSelectedParts_snoc.
    destruct (updateSelectedParts parts cat tor false (c, h)) as [c1 h1].
    simpl in IH. destruct IH as [-> ->]. simpl. split; [done|].
    by rewrite reverse_snoc.
Qed.

Lemma lookup_foldr_delete {A} (m : gmap string A) ks k :
  foldr delete m ks !! k = if decide (k ∈ ks) then None else m !! k.
Proof.
  induction ks as [|k' ks IH].
  - case_decide as E; [by apply elem_of_nil in E|done].
  - cbn [foldr]. destruct (decide (k' = k)) as [->|Hne].
    + rewrite lookup_delete_eq.
      destruct (decide (k ∈ k :: ks)) as [|E]; [done|].
      exfalso. apply E. by left.
    + rewrite lookup_delete_ne, IH by done.
      destruct (decide (k ∈ ks)) as [E|E], (decide (k ∈ k' :: ks)) as [E'|E'];
        try done.
      * exfalso. apply E'. by right.
      * apply elem_of_cons in E' as [?|?]; congruence.
Qed.

End Selection.

Lemma last_with_key {A} (key : A → string) (parts : list A) (k : string) :
  k ∈ key <$> parts →
  ∃ pre l post, parts = pre ++ l :: post ∧ key l = k ∧ k ∉ key <$> post.
Proof.
  induction parts as [|x parts IH]; simpl.
  - intros H. by apply elem_of_nil in H.
  - intros H. destruct (decide (k ∈ key <$> parts)) as [Hin|Hout].
    + destruct (IH Hin) as (pre & l & post & -> & Hk & Hp).
      by exists (x :: pre), l, post.
    + apply elem_of_cons in H as [->|H]; [|done].
      by exists [], x, parts.
Qed.

Lemma select_entry (parts : list loc) (cat tor : string) (c : Component)
    (h : heap) (l : loc) :
  let key := fun l => getUKey c cat tor (h l) in
  l ∈ parts →
  ∃ l', l' ∈ parts ∧ key l' = key l ∧
    selectedParts (updateSelectedParts parts cat tor true (c, h)).1 !! key l
    = Some (mkCategorizedPart cat tor
              (set_qty (recorded_qty (selectedParts c) (key l)) (h l'))).
Proof.
  intros key Hin.
  pose proof (select_inv_holds cat tor parts c h) as [_ _ _ _ _ _ Hl].
  destruct (last_with_key key parts (key l)) as (pre & l' & post & E & Hkl & Hp).
  { by apply list_elem_of_fmap_2. }
  exists l'. split; [rewrite E; apply elem_of_app; right; by left|].
  split; [done|].
  rewrite <- Hkl. rewrite <- Hkl in Hp. by apply (Hl pre l' post).
Qed.

Lemma set_selectedParts_id c : set_selectedParts (selectedParts c) c = c.
Proof. by destruct c. Qed.

(** C1 — ToggleParts ([updateSelectedParts]).  With [checked = true], the
    iteration for each input part inserts or overwrites the entry under the
    part's composite key with [categoryId], [torId] and the part's fields,
    the quantity being the one stored under that key just before, or 1 when
    the key was absent.  After the call every input part has an entry under
    its key that carries [categoryId], [torId], the fields of an input part
    with that key (the part itself when no later input part has the same
    key), and the quantity stored under that key before the call, or 1.  With
    [checked = false], every input part's key is removed.  Keys of no input
    part are left as they were. *)
Theorem updateSelectedParts_registry (parts : list loc) (cat tor : string)
    (c : Component) (h : heap) :
  let key := fun l => getUKey c cat tor (h l) in
  let prior := fun k => match selectedParts c !! k with
                        | Some prev => qty (cpPart prev)
                        | None => Some 1
                        end in
  let on := selectedParts (ToggleParts parts cat tor true (c, h)).1 in
  let off := selectedParts (ToggleParts parts cat tor false (c, h)).1 in
  (∀ l, l ∈ parts →
     ∃ l', l' ∈ parts ∧ key l' = key l ∧
       on !! key l = Some (mkCategorizedPart cat tor (set_qty (prior (key l)) (h l'))))
  ∧ (∀ pre l post, parts = pre ++ l :: post → key l ∉ key <$> post →
       on !! key l = Some (mkCategorizedPart cat tor (set_qty (prior (key l)) (h l))))
  ∧ (∀ pre l post, parts = pre ++ l :: post →
       let before := selectedParts (ToggleParts pre cat tor true (c, h)).1 in
       selectedParts (ToggleParts (pre ++ [l]) cat tor true (c, h)).1
       = <[key l := mkCategorizedPart cat tor
             (set_qty (match before !! key l with
                       | Some prev => qty (cpPart prev)
                       | None => Some 1
                       end) (h l))]> before)
  ∧ (∀ l, l ∈ parts → off !! key l = None)
  ∧ (∀ k, k ∉ key <$> parts →
       on !! k = selectedParts c !! k ∧ off !! k = selectedParts c !! k).
Proof.
  intros key prior on off.
  pose proof (select_inv_holds cat tor parts c h) as [_ _ _ _ _ Hk Hl].
  destruct (deselect_holds cat tor parts c h) as [_ Hoff].
  assert (Eoff : ∀ k, off !! k
            = if decide (k ∈ key <$> reverse parts) then None else selectedParts c !! k).
  { intros k. subst off. unfold ToggleParts. rewrite Hoff. simpl.
    apply lookup_foldr_delete. }
  repeat split.
  - intros l Hin. by apply select_entry.
  - intros pre l post E Hp. by apply (Hl pre l post).
  - intros pre l post _. apply (select_step cat tor pre l c h).
  - intros l Hin. rewrite Eoff, decide_True; [done|].
    apply list_elem_of_fmap_2, elem_of_reverse, Hin.
  - by apply Hk.
  - rewrite Eoff, decide_False; [done|].
    by rewrite fmap_reverse, elem_of_reverse.
Qed.

(** C5 — deselecting is idempotent: toggling the same parts off twice gives
    the state that toggling them off once gives, and toggling off a part
    whose key is absent changes nothing. *)
Theorem deselect_idempotent (parts : list loc) (l : loc) (cat tor : string)
    (c : Component) (h : heap) :
  let once := ToggleParts parts cat tor false (c, h) in
  ToggleParts parts cat tor false once = once
  ∧ ToggleParts [l] cat tor false (ToggleParts [l] cat tor false (c, h))
    = ToggleParts [l] cat tor false (c, h)
  ∧ (selectedParts c !! getUKey c cat tor (h l) = None →
     ToggleParts [l] cat tor false (c, h) = (c, h)).
Proof.
  assert (Hidem : ∀ ps, ToggleParts ps cat tor false (ToggleParts ps cat tor false (c, h))
                        = ToggleParts ps cat tor false (c, h)).
  { intros ps. unfold ToggleParts.
    destruct (deselect_holds cat tor ps c h) as [Hh Hc].
    destruct (updateSelectedParts ps cat tor false (c, h)) as [c1 h1] eqn:E1.
    simpl in Hh, Hc. subst h1.
    destruct (deselect_holds cat tor ps c1 h) as [Hh2 Hc2].
    destruct (updateSelectedParts ps cat tor false (c1, h)) as [c2 h2] eqn:E2.
    simpl in Hh2, Hc2. subst h2. f_equal.
    rewrite Hc2. clear Hc2 E1 E2.
    set (ks := (λ l0, getUKey c cat tor (h l0)) <$> reverse ps) in *.
    assert (Hks : (λ l0, getUKey c1 cat tor (h l0)) <$> reverse ps = ks)
      by (by rewrite Hc).
    rewrite Hks.
    assert (Hm : foldr delete (selectedParts c1) ks = selectedParts c1).
    { apply map_eq. intros k. rewrite lookup_foldr_delete.
      destruct (decide (k ∈ ks)) as [Hin|]; [|done].
      rewrite Hc. simpl. rewrite lookup_foldr_delete. by rewrite decide_True. }
    rewrite Hm. apply set_selectedParts_id. }
  intros once. split; [apply Hidem|]. split; [apply Hidem|].
  intros Habs. unfold ToggleParts. simpl.
  rewrite delete_id by done. by rewrite set_selectedParts_id.
Qed.

(** C10 — ToggleParts with [checked = true] writes the caller's part
    records: every input part's [qty] becomes the quantity recorded in the
    registry under its key (the prior quantity, or 1), its other fields and
    all other parts stay as they were; with [checked = false] no part record
    is written. *)
Theorem updateSelectedParts_heap (parts : list loc) (cat tor : string)
    (c : Component) (h : heap) :
  let key := fun l => getUKey c cat tor (h l) in
  let s1 := ToggleParts parts cat tor true (c, h) in
  (∀ l, l ∈ parts →
     s1.2 l = set_qty (recorded_qty (selectedParts c) (key l)) (h l)
     ∧ ∃ e, selectedParts s1.1 !! key l = Some e ∧ qty (s1.2 l) = qty (cpPart e))
  ∧ (∀ l, l ∉ parts → s1.2 l = h l)
  ∧ (ToggleParts parts cat tor false (c, h)).2 = h.
Proof.
  intros key s1.
  pose proof (select_inv_holds cat tor parts c h) as [_ Hi Hq Ho _ _ _].
  unfold s1, key, ToggleParts. split; [|split].
  - intros l Hin. split.
    + specialize (Hi l) as (H1 & H2 & H3). specialize (Hq l Hin).
      unfold set_qty. rewrite <- H1, <- H2, <- H3, <- Hq.
      by destruct ((updateSelectedParts parts cat tor true (c, h)).2 l).
    + destruct (select_entry parts cat tor c h l Hin) as (l' & _ & _ & He).
      eexists. split; [exact He|]. simpl. by apply Hq.
  - exact Ho.
  - apply (deselect_holds cat tor parts c h).
Qed.

(** ** The category aggregate *)

Lemma forallb_elem_of {A} (f : A → bool) (l : list A) :
  forallb f l = true ↔ ∀ x, x ∈ l → f x = true.
Proof.
  rewrite forallb_forall. split; intros H x Hx; apply H; by apply list_elem_of_In.
Qed.

(** C2 — IsCategoryFullySelected ([isAllPartsInCategorySelected]) on a
    category with a repair-type list answers true exactly when the key of
    every part in the included and excluded lists of every repair-type is
    present in the selected registry; repair-types without parts, and a
    category without repair-types, give true. *)
Theorem isAllPartsInCategorySelected_iff (c : Component) (h : heap)
    (cid title : string) (tors : list TOR) :
  let category := mkCategory cid title (Some tors) in
  (∃ b, isAllPartsInCategorySelected c h category = Some b ∧
     (b = true ↔
      ∀ t, t ∈ tors → ∀ l, l ∈ partsIncluded t ++ partsExcluded t →
        is_Some (selectedParts c !! getUKey c cid (torId t) (h l))))
  ∧ ((∀ t, t ∈ tors → partsIncluded t = [] ∧ partsExcluded t = []) →
     isAllPartsInCategorySelected c h category = Some true)
  ∧ isAllPartsInCategorySelected c h (mkCategory cid title (Some [])) = Some true.
Proof.
  intros category.
  assert (Hiff : ∀ ts,
    forallb (λ b : bool, b)
      (map (λ t, forallb (λ l, bool_decide (is_Some
               (selectedParts c !! getUKey c cid (torId t) (h l))))
             (partsIncluded t ++ partsExcluded t)) ts) = true
    ↔ ∀ t, t ∈ ts → ∀ l, l ∈ partsIncluded t ++ partsExcluded t →
        is_Some (selectedParts c !! getUKey c cid (torId t) (h l))).
  { intros ts. rewrite forallb_elem_of. split.
    - intros H t Ht l Hl.
      specialize (H _ (list_elem_of_fmap_2 _ ts t Ht)).
      rewrite forallb_elem_of in H. exact (bool_decide_eq_true_1 _ (H l Hl)).
    - intros H b Hb. apply list_elem_of_fmap in Hb as (t & -> & Ht).
      apply forallb_elem_of. intros l Hl. apply bool_decide_eq_true_2. by apply (H t). }
  split; [|split].
  - eexists. split; [reflexivity|]. apply Hiff.
  - intros Hempty. unfold isAllPartsInCategorySelected. simpl. f_equal.
    apply Hiff. intros t Ht l Hl. destruct (Hempty t Ht) as [E1 E2].
    rewrite E1, E2 in Hl. by apply elem_of_nil in Hl.
  - reflexivity.
Qed.

(** ** Quantity changes and price overlays *)

(** C4 — SetQuantity ([qtyChanged]) leaves the checked registry empty,
    gives every selected entry the quantity [q] and nothing else new, and
    keeps the selected registry's keys. *)
Theorem qtyChanged_spec (q : Z) (c : Component) :
  let c' := SetQuantity q c in
  checkedParts c' = ∅
  ∧ (∀ k e, selectedParts c' !! k = Some e → qty (cpPart e) = Some q)
  ∧ dom (selectedParts c') = dom (selectedParts c)
  ∧ (∀ k, selectedParts c' !! k = cp_set_qty (Some q) <$> selectedParts c !! k).
Proof.
  simpl. repeat split.
  - intros k e. rewrite lookup_fmap.
    destruct (selectedParts c !! k); simpl; [|done]. by intros [= <-].
  - apply dom_fmap_L.
  - intros k. apply lookup_fmap.
Qed.

Lemma overlay_fold (P : list CategorizedPart) (c : Component) :
  fold_left (fun c p =>
      set_checkedParts
        (<[getUKey c (cpCategoryId p) (cpTorId p) (cpPart p) := p]> (checkedParts c)) c)
    P c
  = set_checkedParts
      (fold_left (fun m p => <[priceKey c p := p]> m) P (checkedParts c)) c.
Proof.
  revert c. induction P as [|p P IH]; intros c; simpl.
  - by destruct c.
  - rewrite IH. by destruct c.
Qed.

Lemma overlay_lookup (c : Component) (P : list CategorizedPart)
    (m : gmap string CategorizedPart) (k : string) :
  (k ∈ (priceKey c <$> P) ∧
   ∃ p, p ∈ P ∧ priceKey c p = k ∧
        fold_left (fun m p => <[priceKey c p := p]> m) P m !! k = Some p)
  ∨ ((k ∉ priceKey c <$> P) ∧
     fold_left (fun m p => <[priceKey c p := p]> m) P m !! k = m !! k).
Proof.
  revert m. induction P as [|p P IH]; intros m; simpl.
  - right. split; [apply not_elem_of_nil|done].
  - destruct (IH (<[priceKey c p := p]> m)) as [(Hin & p' & Hp' & Hk & E)|(Hout & E)].
    + left. split; [by right|]. exists p'. split; [by right|done].
    + destruct (decide (priceKey c p = k)) as [Heq|Hne].
      * left. split; [rewrite <- Heq; by left|]. exists p.
        split; [by left|]. split; [done|].
        by rewrite E, <- Heq, lookup_insert_eq.
      * right. split.
        -- intros [?|?]%elem_of_cons; [congruence|done].
        -- by rewrite E, lookup_insert_ne.
Qed.

(** C3 — OverlayPrices ([updatePricesInfo]) replaces the checked registry:
    afterwards its keys are exactly the composite keys of the priced parts
    given, each entry is one of those parts stored under its own key, and
    the selected registry is the one from before the call. *)
Theorem updatePricesInfo_replaces (P : list CategorizedPart) (c : Component) :
  let c' := OverlayPrices P c in
  dom (checkedParts c') = list_to_set (priceKey c <$> P)
  ∧ (∀ k e, checkedParts c' !! k = Some e → e ∈ P ∧ priceKey c e = k)
  ∧ selectedParts c' = selectedParts c.
Proof.
  unfold OverlayPrices, updatePricesInfo.
  change (partsPrices (set_partsPrices P c)) with P.
  rewrite overlay_fold.
  change (priceKey (set_checkedParts ∅ (set_partsPrices P c))) with (priceKey c).
  simpl. split; [|split; [|done]].
  - apply set_eq. intros k. rewrite elem_of_dom, elem_of_list_to_set.
    destruct (overlay_lookup c P ∅ k) as [(Hin & p & _ & _ & E)|(Hout & E)];
      rewrite E.
    + split; [done|by eexists].
    + rewrite lookup_empty. split; [by intros [? ?]|done].
  - intros k e.
    destruct (overlay_lookup c P ∅ k) as [(Hin & p & Hp & Hk & E)|(Hout & E)];
      rewrite E.
    + by intros [= <-].
    + by rewrite lookup_empty.
Qed.

(** * Properties of the matrix builder *)

(** ** Objects as dictionaries *)

Lemma obj_get_set {A} (o : jsobj A) k v k' :
  obj_get (obj_set o k v) k' = if decide (k = k') then Some v else obj_get o k'.
Proof.
  induction o as [|[k0 v0] o IH]; simpl.
  - done.
  - destruct (decide (k0 = k)) as [->|Hne]; simpl.
    + by destruct (decide (k = k')).
    + rewrite IH. destruct (decide (k0 = k')) as [->|]; [|done].
      by rewrite decide_False.
Qed.

Lemma obj_set_set {A} (o : jsobj A) k v v' :
  obj_set (obj_set o k v) k v' = obj_set o k v'.
Proof.
  induction o as [|[k0 v0] o IH]; simpl.
  - by rewrite decide_True.
  - destruct (decide (k0 = k)) as [->|Hne]; simpl.
    + by rewrite decide_True.
    + by rewrite decide_False, IH.
Qed.

Lemma obj_get_is_Some {A} (o : jsobj A) k : is_Some (obj_get o k) ↔ k ∈ o.*1.
Proof.
  induction o as [|[k0 v0] o IH]; simpl.
  - split; [by intros [? ?]|by intros ?%elem_of_nil].
  - destruct (decide (k0 = k)) as [->|Hne].
    + split; [by left|by eexists].
    + rewrite IH, elem_of_cons. split; [by right|]. by intros [?|?].
Qed.

Lemma obj_get_None {A} (o : jsobj A) k : obj_get o k = None ↔ k ∉ o.*1.
Proof. rewrite <- obj_get_is_Some, eq_None_not_Some. done. Qed.

Lemma obj_set_keys {A} (o : jsobj A) k v :
  (obj_set o k v).*1 = if decide (k ∈ o.*1) then o.*1 else o.*1 ++ [k].
Proof.
  induction o as [|[k0 v0] o IH].
  - done.
  - cbn [obj_set]. destruct (decide (k0 = k)) as [->|Hne]; rewrite !fmap_cons.
    + rewrite decide_True; [done|by left].
    + rewrite IH. cbn [fst]. destruct (decide (k ∈ o.*1)) as [Hin|Hout].
      * rewrite decide_True; [done|by right].
      * rewrite decide_False; [done|].
        intros [?|?]%elem_of_cons; [congruence|done].
Qed.

(** ** The builder as a fold over (category id, repair-type) pairs *)

Lemma tables_grow_refl c : tables_grow c c.
Proof. by split. Qed.

Lemma tables_grow_trans c1 c2 c3 :
  tables_grow c1 c2 → tables_grow c2 c3 → tables_grow c1 c3.
Proof. intros [] []. split; try congruence; set_solver. Qed.

Lemma inherited_name_proto k : inherited_name k = false → k ≠ "__proto__".
Proof. intros H ->. by vm_compute in H. Qed.

Lemma table_set_safe {V} (T : gmap string V) k v :
  inherited_name k = false → table_set T k v = <[k := v]> T.
Proof.
  intros H%inherited_name_proto. unfold table_set. by rewrite decide_False.
Qed.

Lemma table_set_dom {V} (T : gmap string V) k v : dom T ⊆ dom (table_set T k v).
Proof.
  unfold table_set. destruct (decide (k = "__proto__")); [done|].
  rewrite dom_insert_L. apply union_subseteq_r.
Qed.

Lemma writeCell_eq cat rt m c h :
  writeCell cat rt (m, c, h)
  = (obj_set m (torId rt)
       (obj_set (default [] (obj_get m (torId rt))) cat (rt_cell rt)),
     c, mark_step h (cat, rt)).
Proof. reflexivity. Qed.

(** Without a read answered by the prototype chain, the builder's step is
    [matrix_step] on the matrix, [tor_insert] on the table and [mark_step] on
    the store. *)
Lemma buildRepairType_eq cat m c h rt :
  inherited_name cat = false → inherited_name (torId rt) = false →
  buildRepairType cat (m, c, h) rt
  = (Normal,
     (matrix_step m (cat, rt),
      set_torsById (tor_insert (torsById c) (cat, rt)) c,
      mark_step h (cat, rt))).
Proof.
  intros Hcat Htor. unfold buildRepairType. rewrite Htor, Hcat.
  rewrite (table_set_safe _ _ _ Htor), !writeCell_eq.
  unfold matrix_step, tor_insert. cbn [fst snd].
  destruct (obj_get m (torId rt)) as [row|] eqn:Hrow.
  - destruct (obj_get row cat) as [cell|] eqn:Hcell; [done|].
    rewrite writeCell_eq, obj_get_set, decide_True by done. cbn [default id].
    by rewrite !obj_set_set.
  - rewrite obj_get_set, decide_True by done. cbn [default id].
    rewrite obj_set_set. cbn [obj_set]. by rewrite decide_True.
Qed.

Lemma run_each_inv {S A} (R : S → S → Prop) (f : S → A → Completion * S) :
  (∀ s, R s s) → (∀ a b c, R a b → R b c → R a c) →
  (∀ s x, R s (f s x).2) →
  ∀ l s, R s (run_each f l s).2.
Proof.
  intros Hrefl Htrans Hf l. induction l as [|x l IH]; intros s; [apply Hrefl|].
  cbn [run_each]. specialize (Hf s x).
  destruct (f s x) as [[| |] s']; cbn [snd] in *; [|done..].
  eapply Htrans; [exact Hf|apply IH].
Qed.

(** Whatever the catalog and however the call ends, the builder leaves the
    registries and the inputs alone and only adds to the id tables. *)
Lemma buildRepairType_grow cat m c h rt :
  tables_grow c (buildRepairType cat (m, c, h) rt).2.1.2.
Proof.
  assert (H : tables_grow c
            (set_torsById (table_set (torsById c) (torId rt) (torId rt, torTitle rt)) c)).
  { split; simpl; try done. apply table_set_dom. }
  unfold buildRepairType, writeCell, markExcluded.
  destruct (obj_get m (torId rt)) as [row|];
    [destruct (obj_get row cat)|]; repeat case_match; exact H.
Qed.

Lemma buildCategory_grow m c h category :
  tables_grow c (buildCategory (m, c, h) category).2.1.2.
Proof.
  unfold buildCategory. destruct (repairTypes category) as [rts|];
    [|apply tables_grow_refl].
  eapply tables_grow_trans;
    [|refine (run_each_inv (λ s s', tables_grow s.1.2 s'.1.2)
                (buildRepairType (categoryId category)) _ _ _ rts (m, _, h))].
  - split; simpl; try done. apply table_set_dom.
  - intros. apply tables_grow_refl.
  - intros ? ? ?. apply tables_grow_trans.
  - intros [[m0 c0] h0] rt. apply buildRepairType_grow.
Qed.

Lemma run_buildCategory_grow cats m c h :
  tables_grow c (run_each buildCategory cats (m, c, h)).2.1.2.
Proof.
  refine (run_each_inv (λ s s', tables_grow s.1.2 s'.1.2) buildCategory
            _ _ _ cats (m, c, h)).
  - intros. apply tables_grow_refl.
  - intros ? ? ?. apply tables_grow_trans.
  - intros [[m0 c0] h0] category. apply buildCategory_grow.
Qed.

Lemma createPartsMatrix_grow c h :
  let c' := (createPartsMatrix (c, h)).2.1 in
  uKeyPrefix c' = uKeyPrefix c
  ∧ selectedParts c' = selectedParts c
  ∧ checkedParts c' = checkedParts c
  ∧ dom (categoriesById c) ⊆ dom (categoriesById c')
  ∧ dom (torsById c) ⊆ dom (torsById c').
Proof.
  unfold createPartsMatrix. destruct (categories c) as [cats|]; [|done].
  generalize (run_buildCategory_grow cats [] c h).
  destruct (run_each buildCategory cats _) as [k [[m1 c1] h1]].
  cbn [fst snd]. intros [].
  destruct k;
    cbn [fst snd set_torColumns set_partsMatrix uKeyPrefix selectedParts
         checkedParts categoriesById torsById];
    by repeat split.
Qed.

Lemma run_buildRepairType_safe cat rts m c h :
  inherited_name cat = false →
  forallb (fun rt => negb (inherited_name (torId rt))) rts = true →
  run_each (buildRepairType cat) rts (m, c, h)
  = (Normal,
     (fold_left matrix_step ((fun rt => (cat, rt)) <$> rts) m,
      set_torsById
        (fold_left tor_insert ((fun rt => (cat, rt)) <$> rts) (torsById c)) c,
      fold_left mark_step ((fun rt => (cat, rt)) <$> rts) h)).
Proof.
  intros Hcat. revert m c h. induction rts as [|rt rts IH]; intros m c h Hs.
  - simpl. by destruct c.
  - cbn [forallb] in Hs. apply andb_prop in Hs as [Hrt Hs].
    apply negb_true_iff in Hrt.
    rewrite fmap_cons. cbn [run_each fold_left].
    rewrite (buildRepairType_eq _ _ _ _ _ Hcat Hrt), (IH _ _ _ Hs).
    by destruct c.
Qed.

Lemma run_buildCategory_safe cats m c h :
  safe_catalog cats = true →
  run_each buildCategory cats (m, c, h)
  = (Normal,
     (fold_left matrix_step (catalog_pairs cats) m,
      set_torsById (fold_left tor_insert (catalog_pairs cats) (torsById c))
        (set_categoriesById (fold_left cat_insert cats (categoriesById c)) c),
      fold_left mark_step (catalog_pairs cats) h)).
Proof.
  revert m c h. induction cats as [|category cats IH]; intros m c h Hs.
  - simpl. by destruct c.
  - cbn [safe_catalog forallb] in Hs. apply andb_prop in Hs as [Hc Hs].
    cbn [run_each fold_left]. unfold catalog_pairs. rewrite bind_cons.
    fold (catalog_pairs cats). rewrite !fold_left_app.
    unfold buildCategory, cat_insert at 2. unfold safe_category in Hc.
    destruct (repairTypes category) as [rts|] eqn:Hrts.
    + apply andb_prop in Hc as [Hid Hrts'].
      apply negb_true_iff in Hid.
      rewrite (run_buildRepairType_safe (categoryId category) rts m _ h Hid Hrts').
      rewrite (IH _ _ _ Hs), (table_set_safe _ _ _ Hid). by destruct c.
    + by rewrite (IH _ _ _ Hs).
Qed.

Lemma createPartsMatrix_exact cats c h :
  categories c = Some cats → safe_catalog cats = true →
  createPartsMatrix (c, h)
  = (Normal,
     (set_torColumns (Some (sort_columns (fold_left matrix_step (catalog_pairs cats) [])))
        (set_partsMatrix (Some (fold_left matrix_step (catalog_pairs cats) []))
           (set_torsById (fold_left tor_insert (catalog_pairs cats) (torsById c))
              (set_categoriesById (fold_left cat_insert cats (categoriesById c)) c))),
      fold_left mark_step (catalog_pairs cats) h)).
Proof.
  intros Hc Hs. unfold createPartsMatrix.
  by rewrite Hc, (run_buildCategory_safe _ _ _ _ Hs).
Qed.

(** ** Cells *)

Lemma cell_at_step m p t cid :
  cell_at (matrix_step m p) t cid
  = if decide (at_cell t cid p) then Some (rt_cell p.2) else cell_at m t cid.
Proof.
  unfold cell_at, matrix_step, at_cell. rewrite obj_get_set.
  destruct (decide (torId p.2 = t)) as [Ht|Ht]; simpl.
  - rewrite obj_get_set. subst t.
    destruct (decide (p.1 = cid)) as [Hc|Hc].
    + by rewrite decide_True.
    + rewrite decide_False by tauto. by destruct (obj_get m (torId p.2)).
  - by rewrite decide_False by tauto.
Qed.

Lemma cell_at_fold pairs m t cid :
  cell_at (fold_left matrix_step pairs m) t cid
  = match last (filter (at_cell t cid) pairs) with
    | Some p => Some (rt_cell p.2)
    | None => cell_at m t cid
    end.
Proof.
  revert m. induction pairs as [|p pairs IH]; intros m; [done|].
  cbn [fold_left]. rewrite IH, cell_at_step, filter_cons.
  destruct (decide (at_cell t cid p)) as [Hp|Hp]; [|done].
  rewrite last_cons. by destruct (last (filter (at_cell t cid) pairs)).
Qed.

Lemma elem_of_catalog_pairs cats p :
  p ∈ catalog_pairs cats ↔
  ∃ category rts, category ∈ cats ∧ repairTypes category = Some rts
                  ∧ p.2 ∈ rts ∧ p.1 = categoryId category.
Proof.
  unfold catalog_pairs. rewrite list_elem_of_bind. split.
  - intros (category & Hp & Hc). destruct (repairTypes category) as [rts|] eqn:E.
    + apply list_elem_of_fmap in Hp as (rt & -> & Hrt). by exists category, rts.
    + by apply elem_of_nil in Hp.
  - intros (category & rts & Hc & E & Hrt & Hid). exists category.
    split; [|done]. rewrite E. apply list_elem_of_fmap. exists p.2.
    split; [|done]. destruct p; simpl in *; by subst.
Qed.

(** ** Exclusion flags *)

Lemma mark_lookup ls h l :
  fold_left (fun h l => store l (set_isExcluded (Some true) (h l)) h) ls h l
  = if decide (l ∈ ls) then set_isExcluded (Some true) (h l) else h l.
Proof.
  revert h. induction ls as [|x ls IH]; intros h.
  - simpl. destruct (decide (l ∈ [])) as [H|]; [by apply elem_of_nil in H|done].
  - cbn [fold_left]. rewrite IH.
    destruct (decide (l = x)) as [->|Hne].
    + rewrite !store_eq. rewrite (decide_True (P := x ∈ x :: ls)) by (by left).
      by destruct (decide (x ∈ ls)).
    + rewrite !store_ne by done.
      destruct (decide (l ∈ ls)) as [Hin|Hout],
               (decide (l ∈ x :: ls)) as [Hin'|Hout']; try done.
      * exfalso. apply Hout'. by right.
      * apply elem_of_cons in Hin' as [?|?]; done.
Qed.

Lemma mark_fold pairs h :
  fold_left mark_step pairs h
  = fold_left (fun h l => store l (set_isExcluded (Some true) (h l)) h)
      (excluded_locs pairs) h.
Proof.
  revert h. induction pairs as [|p pairs IH]; intros h; [done|].
  unfold excluded_locs. rewrite bind_cons, fold_left_app.
  cbn [fold_left]. by rewrite IH.
Qed.

Lemma createPartsMatrix_Some cats c h :
  categories c = Some cats → safe_catalog cats = true →
  ∃ c', tables_grow c c' ∧
    createPartsMatrix (c, h)
    = (Normal,
       (set_torColumns (Some (sort_columns (fold_left matrix_step (catalog_pairs cats) [])))
          (set_partsMatrix (Some (fold_left matrix_step (catalog_pairs cats) [])) c'),
        fold_left mark_step (catalog_pairs cats) h)).
Proof.
  intros Hc Hs. eexists. split; [|by apply createPartsMatrix_exact].
  pose proof (run_buildCategory_grow cats [] c h) as H.
  by rewrite (run_buildCategory_safe _ _ _ _ Hs) in H.
Qed.

(** C6 — on a category list whose category and repair-type ids are not
    inherited property names, Build ([createPartsMatrix]) returns, and
    afterwards every matrix cell holds the included and excluded lists of a
    repair-type of the input verbatim (of the last one listed under that
    repair-type id and category id), every repair-type of the input has its
    cell, and every part in a cell's excluded list has [isExcluded = true] in
    the store, whatever the flag was before; no other part record is
    written. *)
Theorem createPartsMatrix_cells (cats : list SNRCategory) (c : Component) (h : heap) :
  safe_catalog cats = true →
  let r := Build (Some cats) (c, h) in
  Build_completion (Some cats) (c, h) = Normal
  ∧ ∃ m, partsMatrix r.1 = Some m
  ∧ (∀ t cid, cell_at m t cid
       = (fun p => rt_cell p.2) <$> last (filter (at_cell t cid) (catalog_pairs cats)))
  ∧ (∀ t cid cell, cell_at m t cid = Some cell →
       ∃ category rts rt, category ∈ cats ∧ repairTypes category = Some rts ∧ rt ∈ rts
         ∧ categoryId category = cid ∧ torId rt = t
         ∧ included cell = Some (partsIncluded rt)
         ∧ excluded cell = Some (partsExcluded rt))
  ∧ (∀ category rts rt, category ∈ cats → repairTypes category = Some rts → rt ∈ rts →
       is_Some (cell_at m (torId rt) (categoryId category)))
  ∧ (∀ t cid cell ex l, cell_at m t cid = Some cell → excluded cell = Some ex →
       l ∈ ex → isExcluded (r.2 l) = Some true)
  ∧ (∀ l, r.2 l = if decide (l ∈ excluded_locs (catalog_pairs cats))
                  then set_isExcluded (Some true) (h l) else h l).
Proof.
  intros Hsafe r.
  destruct (createPartsMatrix_Some cats (set_categories (Some cats) c) h eq_refl Hsafe)
    as (c' & Hg & E).
  unfold r, Build, Build_completion. cbn [fst snd]. rewrite E. cbn [fst snd].
  split; [done|].
  set (pairs := catalog_pairs cats).
  exists (fold_left matrix_step pairs []). split; [done|].
  assert (Hcell : ∀ t cid, cell_at (fold_left matrix_step pairs []) t cid
            = (λ p, rt_cell p.2) <$> last (filter (at_cell t cid) pairs)).
  { intros t cid. rewrite cell_at_fold.
    by destruct (last (filter (at_cell t cid) pairs)). }
  assert (Hfrom : ∀ t cid cell, cell_at (fold_left matrix_step pairs []) t cid = Some cell →
            ∃ p, p ∈ pairs ∧ at_cell t cid p ∧ cell = rt_cell p.2).
  { intros t cid cell. rewrite Hcell.
    destruct (last (filter (at_cell t cid) pairs)) as [p|] eqn:El; [|done].
    intros [= <-]. exists p.
    apply last_Some_elem_of, list_elem_of_filter in El as [? ?]. done. }
  assert (Hheap : ∀ l, fold_left mark_step pairs h l
            = if decide (l ∈ excluded_locs pairs)
              then set_isExcluded (Some true) (h l) else h l).
  { intros l. rewrite mark_fold. apply mark_lookup. }
  split; [exact Hcell|]. split; [|split; [|split; [|exact Hheap]]].
  - intros t cid cell Hc. destruct (Hfrom t cid cell Hc) as (p & Hp & [Ht Hid] & ->).
    apply elem_of_catalog_pairs in Hp as (category & rts & ? & ? & ? & Hk).
    exists category, rts, p.2. repeat split; try done. congruence.
  - intros category rts rt Hin Hrts Hrt. rewrite Hcell.
    assert (Hp : (categoryId category, rt) ∈ filter
              (at_cell (torId rt) (categoryId category)) pairs).
    { apply list_elem_of_filter. split; [done|].
      apply elem_of_catalog_pairs. by exists category, rts. }
    destruct (last (filter (at_cell (torId rt) (categoryId category)) pairs)) eqn:El.
    + by eexists.
    + apply last_None in El. rewrite El in Hp. by apply elem_of_nil in Hp.
  - intros t cid cell ex l Hc Hex Hl.
    destruct (Hfrom t cid cell Hc) as (p & Hp & _ & ->).
    simpl in Hex. injection Hex as <-.
    rewrite Hheap, decide_True; [done|].
    unfold excluded_locs. apply list_elem_of_bind. by exists p.
Qed.

Lemma createPartsMatrix_cells_witness :
  let h : heap := fun _ => mkPart "P1" "A" (Some false) None in
  let cats := [mkCategory "C1" "Engine" (Some [mkTOR "T1" "Overhaul" [1%nat] [2%nat]])] in
  let r := Build (Some cats) (newComponent "k", h) in
  Build_completion (Some cats) (newComponent "k", h) = Normal
  ∧ r.2 1%nat = mkPart "P1" "A" (Some false) None
  ∧ r.2 2%nat = mkPart "P1" "A" (Some true) None.
Proof.
  intros h cats r.
  destruct (createPartsMatrix_cells cats (newComponent "k") h eq_refl)
    as (Hn & m & _ & _ & _ & _ & _ & Hheap).
  split; [exact Hn|]. split; [exact (Hheap 1%nat)|exact (Hheap 2%nat)].
Defined.

(** C6, as stated for every category list, fails: when the repair-type id
    and the category id are both [__proto__] the build throws before the
    matrix is assigned; the matrix is then the one of the previous catalog,
    with the cell (T, C) that is no cell of the input, and the input's
    excluded part 4 has no flag. *)
Lemma createPartsMatrix_cells_inherited_ids :
  let h : heap := fun _ => mkPart "P" "A" None None in
  let s := Build (Some [mkCategory "C" "c" (Some [mkTOR "T" "t" [1%nat] [2%nat]])])
             (newComponent "k", h) in
  let cats := [mkCategory "__proto__" "x"
                 (Some [mkTOR "__proto__" "y" [3%nat] [4%nat]])] in
  Build_completion (Some cats) s = TypeError
  ∧ partsMatrix (Build (Some cats) s).1
    = Some [("T", [("C", mkCell (Some [1%nat]) (Some [2%nat]))])]
  ∧ isExcluded ((Build (Some cats) s).2 4%nat) = None.
Proof. by vm_compute. Qed.

(** ** Absent and empty catalogs, and the id tables *)

Lemma Build_tables (cats : option (list SNRCategory)) (c : Component) (h : heap) :
  dom (categoriesById c) ⊆ dom (categoriesById (Build cats (c, h)).1)
  ∧ dom (torsById c) ⊆ dom (torsById (Build cats (c, h)).1)
  ∧ selectedParts (Build cats (c, h)).1 = selectedParts c
  ∧ checkedParts (Build cats (c, h)).1 = checkedParts c.
Proof.
  destruct (createPartsMatrix_grow (set_categories cats c) h) as (_ & H1 & H2 & H3 & H4).
  unfold Build. cbn [fst snd]. done.
Qed.

(** C8 — Build ([createPartsMatrix]) raises no error on an absent list, on
    an empty list, and on every category list whose category and repair-type
    ids are not inherited property names; it throws a [TypeError] on a list
    whose one category and repair-type both have the id [__proto__].  On an
    absent category list it sets
    the column order to the empty list and leaves the matrix, the id tables
    and the part records as they were; on an empty list it sets both the
    matrix and the column order to empty. *)
Theorem createPartsMatrix_absent_or_empty (c : Component) (h : heap) :
  let absent := Build None (c, h) in
  let empty := Build (Some []) (c, h) in
  (Build_completion None (c, h) = Normal
   ∧ torColumns absent.1 = Some []
   ∧ partsMatrix absent.1 = partsMatrix c
   ∧ categoriesById absent.1 = categoriesById c
   ∧ torsById absent.1 = torsById c
   ∧ absent.2 = h)
  ∧ (Build_completion (Some []) (c, h) = Normal
     ∧ torColumns empty.1 = Some []
     ∧ partsMatrix empty.1 = Some []
     ∧ categoriesById empty.1 = categoriesById c
     ∧ torsById empty.1 = torsById c
     ∧ empty.2 = h)
  ∧ (∀ cats, safe_catalog cats = true →
       Build_completion (Some cats) (c, h) = Normal)
  ∧ (∀ title title' inc exc,
       Build_completion
         (Some [mkCategory "__proto__" title (Some [mkTOR "__proto__" title' inc exc])])
         (c, h) = TypeError).
Proof.
  split; [by repeat split|]. split; [by repeat split|]. split; [|done].
  intros cats Hs. unfold Build_completion. cbn [fst snd].
  by rewrite (createPartsMatrix_exact cats (set_categories (Some cats) c) h eq_refl Hs).
Qed.

Lemma createPartsMatrix_absent_or_empty_witness :
  let h : heap := fun _ => mkPart "P1" "A" None None in
  let cats := [mkCategory "C1" "Engine" (Some [mkTOR "T1" "Overhaul" [1%nat] [2%nat]])] in
  Build_completion (Some cats) (newComponent "k", h) = Normal.
Proof.
  intros h cats.
  exact (proj1 (proj2 (proj2 (createPartsMatrix_absent_or_empty (newComponent "k") h)))
           cats eq_refl).
Defined.

(** C8, as stated, fails: after a build on a one-category catalog, a build
    on an absent list keeps that catalog's matrix, where a build on the empty
    list gives the empty matrix; on a new component the matrix stays
    undefined.  And a build is not free of errors on every list: with the
    repair-type id and the category id both [__proto__] it throws. *)
Lemma createPartsMatrix_absent_keeps_matrix :
  let h : heap := fun _ => mkPart "P" "A" None None in
  let s := Build (Some [mkCategory "C" "c" (Some [mkTOR "T" "t" [] []])])
             (newComponent "k", h) in
  partsMatrix (Build None s).1
    = Some [("T", [("C", mkCell (Some []) (Some []))])]
  ∧ partsMatrix (Build (Some []) s).1 = Some []
  ∧ partsMatrix (Build None (newComponent "k", h)).1 = None
  ∧ partsMatrix (Build (Some []) (newComponent "k", h)).1 = Some []
  ∧ Build_completion
      (Some [mkCategory "__proto__" "x" (Some [mkTOR "__proto__" "y" [] []])])
      (newComponent "k", h) = TypeError.
Proof. by vm_compute. Qed.

(** C9 — the id tables only grow across rebuilds: every id present in
    [categoriesById] or [torsById] after one Build is present after the next
    one, whatever the second catalog holds, also when the selections are
    cleared in between as [ngOnChanges] does. *)
Theorem id_tables_grow (cats1 cats2 : option (list SNRCategory))
    (c : Component) (h : heap) :
  let s1 := Build cats1 (c, h) in
  let s2 := Build cats2 s1 in
  let s2' := Build cats2 (clearSelections s1.1, s1.2) in
  (∀ k, is_Some (categoriesById s1.1 !! k) → is_Some (categoriesById s2.1 !! k))
  ∧ (∀ k, is_Some (torsById s1.1 !! k) → is_Some (torsById s2.1 !! k))
  ∧ dom (categoriesById s1.1) ⊆ dom (categoriesById s2'.1)
  ∧ dom (torsById s1.1) ⊆ dom (torsById s2'.1).
Proof.
  intros s1 s2 s2'. destruct s1 as [c1 h1] eqn:E1.
  destruct (Build_tables cats2 c1 h1) as (H1 & H2 & _).
  destruct (Build_tables cats2 (clearSelections c1) h1) as (H3 & H4 & _).
  repeat split.
  - intros k. rewrite <- !elem_of_dom. apply H1.
  - intros k. rewrite <- !elem_of_dom. apply H2.
  - exact H3.
  - exact H4.
Qed.

(** * Column order *)

(** ** The stable sort *)

Section JsSort.

Context {A : Type} (cmp : A → A → Z) (g : A → Z).
Hypothesis cmp_key : ∀ a b, cmp a b ≤ 0 ↔ g a ≤ g b.

Lemma js_insert_perm x l : js_insert cmp x l ≡ₚ x :: l.
Proof.
  induction l as [|y l IH]; simpl; [done|].
  destruct (cmp x y <=? 0); [done|]. by rewrite IH, Permutation_swap.
Qed.

Lemma js_sort_perm l : js_sort cmp l ≡ₚ l.
Proof.
  induction l as [|x l IH]; simpl; [done|]. by rewrite js_insert_perm, IH.
Qed.

Lemma js_insert_sorted x l :
  StronglySorted (fun a b => g a ≤ g b) l →
  StronglySorted (fun a b => g a ≤ g b) (js_insert cmp x l).
Proof.
  induction l as [|y l IH]; simpl; intros Hs.
  - by repeat constructor.
  - apply StronglySorted_cons in Hs as [Hy Hs].
    destruct (Z.leb_spec (cmp x y) 0) as [Hle|Hgt].
    + apply cmp_key in Hle. apply StronglySorted_cons. split.
      * constructor; [done|]. eapply Forall_impl; [exact Hy|].
        intros z Hz. simpl in Hz. lia.
      * by apply StronglySorted_cons.
    + assert (g y ≤ g x).
      { destruct (Z.le_gt_cases (g x) (g y)) as [H|H]; [|lia].
        apply cmp_key in H. lia. }
      apply StronglySorted_cons. split; [|by apply IH].
      rewrite js_insert_perm. by constructor.
Qed.

Lemma js_sort_sorted l : StronglySorted (fun a b => g a ≤ g b) (js_sort cmp l).
Proof.
  induction l as [|x l IH]; simpl; [constructor|]. by apply js_insert_sorted.
Qed.

Lemma js_insert_filter_ne (P : A → Prop) `{∀ x, Decision (P x)} x l :
  ¬ P x → filter P (js_insert cmp x l) = filter P l.
Proof.
  intros Hx. induction l as [|y l IH]; simpl.
  - by rewrite filter_cons, decide_False.
  - destruct (cmp x y <=? 0).
    + by rewrite (filter_cons _ x), decide_False by done.
    + by rewrite !(filter_cons _ y), IH.
Qed.

Lemma js_insert_filter_eq v x l :
  g x = v →
  filter (fun a => g a = v) (js_insert cmp x l) = x :: filter (fun a => g a = v) l.
Proof.
  intros Hx. induction l as [|y l IH]; simpl.
  - by rewrite filter_cons, decide_True.
  - destruct (Z.leb_spec (cmp x y) 0) as [Hle|Hgt].
    + by rewrite (filter_cons _ x), decide_True.
    + assert (g y ≠ v).
      { intros Hy. assert (g x ≤ g y) as Hxy%cmp_key by lia. lia. }
      rewrite !(filter_cons _ y), !decide_False by done. by rewrite IH.
Qed.

(** Stability: elements with equal keys keep their relative order. *)
Lemma js_sort_stable v l :
  filter (fun a => g a = v) (js_sort cmp l) = filter (fun a => g a = v) l.
Proof.
  induction l as [|x l IH]; simpl; [done|].
  destruct (decide (g x = v)) as [Hx|Hx].
  - rewrite js_insert_filter_eq, filter_cons, decide_True by done.
    by rewrite IH.
  - rewrite js_insert_filter_ne, filter_cons, decide_False by done.
    by rewrite IH.
Qed.

End JsSort.

Lemma js_sort_fmap {A B} (f : A → B) (cmp : B → B → Z) (l : list A) :
  js_sort cmp (f <$> l) = f <$> js_sort (fun a b => cmp (f a) (f b)) l.
Proof.
  induction l as [|x l IH]; [done|].
  rewrite fmap_cons. cbn [js_sort]. rewrite IH.
  generalize (js_sort (λ a b, cmp (f a) (f b)) l). intros l'.
  induction l' as [|y l' IH']; [done|].
  rewrite fmap_cons. cbn [js_insert].
  destruct (cmp (f x) (f y) <=? 0); [done|]. by rewrite fmap_cons, IH'.
Qed.

Lemma StronglySorted_lookup {A} (R : A → A → Prop) (l : list A) i j a b :
  StronglySorted R l → l !! i = Some a → l !! j = Some b → (i < j)%nat → R a b.
Proof.
  intros Hs. revert i j. induction Hs as [|x l Hs IH Hall]; intros i j Hi Hj Hlt.
  - done.
  - destruct i as [|i], j as [|j]; try lia; simpl in *.
    + injection Hi as ->. rewrite Forall_forall in Hall. apply Hall.
      by eapply list_elem_of_lookup_2.
    + apply (IH i j); [done|done|lia].
Qed.

(** ** Keys in creation order *)

Lemma elem_of_encounter_order l x : x ∈ encounter_order l ↔ x ∈ l.
Proof.
  induction l as [|y l IH]; [done|]. cbn [encounter_order].
  rewrite !elem_of_cons, list_elem_of_filter, IH.
  destruct (decide (x = y)) as [->|Hne]; [split; by left|].
  split; [intros [?|[_ ?]]|intros [?|?]]; try done; by right.
Qed.

Lemma encounter_order_NoDup l : NoDup (encounter_order l).
Proof.
  induction l as [|y l IH]; cbn [encounter_order]; [constructor|].
  apply NoDup_cons. split.
  - rewrite list_elem_of_filter. by intros [? _].
  - by apply NoDup_filter.
Qed.

Lemma length_encounter_order l :
  List.length (encounter_order l) = size (list_to_set (C := gset string) l).
Proof.
  rewrite <- (size_list_to_set (C := gset string)) by apply encounter_order_NoDup.
  f_equal. apply set_eq. intros x.
  by rewrite !elem_of_list_to_set, elem_of_encounter_order.
Qed.

Lemma fold_add_key l ks :
  fold_left add_key l ks = ks ++ filter (fun y => y ∉ ks) (encounter_order l).
Proof.
  revert ks. induction l as [|x l IH]; intros ks.
  - simpl. by rewrite app_nil_r.
  - cbn [fold_left encounter_order]. rewrite IH. unfold add_key.
    rewrite filter_cons, list_filter_filter.
    destruct (decide (x ∈ ks)) as [Hin|Hout].
    + rewrite decide_False by tauto. f_equal.
      apply list_filter_iff. intros y. split; [|tauto].
      intros Hy. split; [done|]. by intros ->.
    + rewrite decide_True by done. rewrite <- app_assoc. f_equal. simpl. f_equal.
      apply list_filter_iff. intros y. rewrite not_elem_of_app.
      rewrite list_elem_of_singleton. done.
Qed.

Lemma fold_add_key_nil l : fold_left add_key l [] = encounter_order l.
Proof.
  rewrite fold_add_key. simpl. induction (encounter_order l) as [|x l' IH]; [done|].
  rewrite filter_cons, decide_True by apply not_elem_of_nil. by rewrite IH.
Qed.

Lemma obj_set_add_key {A} (o : jsobj A) k v : (obj_set o k v).*1 = add_key o.*1 k.
Proof. apply obj_set_keys. Qed.

Lemma matrix_step_keys m p : (matrix_step m p).*1 = add_key m.*1 (torId p.2).
Proof. apply obj_set_add_key. Qed.

Lemma matrix_step_row m p t :
  (row_of (matrix_step m p) t).*1
  = if decide (torId p.2 = t) then add_key (row_of m t).*1 p.1 else (row_of m t).*1.
Proof.
  unfold row_of, matrix_step. rewrite obj_get_set.
  destruct (decide (torId p.2 = t)) as [<-|Hne]; [|done].
  simpl. apply obj_set_add_key.
Qed.

Lemma matrix_keys_fold pairs m :
  (fold_left matrix_step pairs m).*1
  = fold_left add_key ((fun p => torId p.2) <$> pairs) m.*1.
Proof.
  revert m. induction pairs as [|p pairs IH]; intros m; [done|].
  rewrite fmap_cons. cbn [fold_left]. by rewrite IH, matrix_step_keys.
Qed.

Lemma matrix_row_fold pairs m t :
  (row_of (fold_left matrix_step pairs m) t).*1
  = fold_left add_key (fst <$> filter (fun p => torId p.2 = t) pairs) (row_of m t).*1.
Proof.
  revert m. induction pairs as [|p pairs IH]; intros m; [done|].
  cbn [fold_left]. rewrite IH, matrix_step_row, filter_cons.
  destruct (decide (torId p.2 = t)); [|done]. by rewrite fmap_cons.
Qed.

(** ** [Object.keys] *)

Lemma index_keys_snd ks :
  (index_keys ks).*2 = filter (fun k => is_Some (array_index k)) ks.
Proof.
  unfold index_keys. induction ks as [|k ks IH]; [done|].
  cbn [omap list_omap]. rewrite filter_cons.
  destruct (decide (is_Some (array_index k))) as [[n E]|Hn].
  - rewrite E. cbn [fmap option_fmap option_map]. by rewrite fmap_cons, IH.
  - apply eq_None_not_Some in Hn. rewrite Hn.
    cbn [fmap option_fmap option_map]. exact IH.
Qed.

Lemma index_keys_value ks x : x ∈ index_keys ks → array_index x.2 = Some x.1.
Proof.
  unfold index_keys. rewrite list_elem_of_omap. intros (k & _ & Hk).
  destruct (array_index k) as [n|] eqn:E; [|done].
  simpl in Hk. injection Hk as <-. done.
Qed.

Lemma Object_keys_perm {A} (o : jsobj A) : Object_keys o ≡ₚ o.*1.
Proof.
  unfold Object_keys. rewrite js_sort_perm, index_keys_snd.
  rewrite <- (filter_app_complement (λ k, is_Some (array_index k)) o.*1) at 3.
  f_equiv. erewrite list_filter_iff; [done|].
  intros k. simpl. by rewrite eq_None_not_Some.
Qed.

Lemma Object_keys_length {A} (o : jsobj A) :
  List.length (Object_keys o) = List.length o.
Proof. by rewrite Object_keys_perm, length_fmap. Qed.

Lemma no_index_keys ks :
  (∀ k, k ∈ ks → array_index k = None) →
  index_keys ks = [] ∧ filter (fun k => array_index k = None) ks = ks.
Proof.
  unfold index_keys. induction ks as [|k ks IH]; intros Hno; [done|].
  destruct IH as [IH1 IH2]; [intros k' Hk'; apply Hno; by right|].
  assert (Hk : array_index k = None) by (apply Hno; by left).
  cbn [omap list_omap]. rewrite Hk. cbn [fmap option_fmap option_map].
  split; [done|]. rewrite filter_cons, decide_True by done. by rewrite IH2.
Qed.

Lemma Object_keys_no_index {A} (o : jsobj A) :
  (∀ k, k ∈ o.*1 → array_index k = None) → Object_keys o = o.*1.
Proof.
  intros Hno. unfold Object_keys.
  destruct (no_index_keys _ Hno) as [-> ->]. done.
Qed.

(** ** The columns *)

Lemma built_matrix_keys cats :
  (fold_left matrix_step (catalog_pairs cats) []).*1 = encounter_order (tor_ids cats).
Proof. by rewrite matrix_keys_fold, fold_add_key_nil. Qed.

Lemma built_matrix_count cats t :
  List.length (Object_keys
    (default [] (obj_get (fold_left matrix_step (catalog_pairs cats) []) t)))
  = category_count cats t.
Proof.
  rewrite Object_keys_length. fold (row_of (fold_left matrix_step (catalog_pairs cats) []) t).
  rewrite <- (length_fmap fst), matrix_row_fold.
  change (row_of [] t).*1 with (@nil string).
  by rewrite fold_add_key_nil, length_encounter_order.
Qed.

Lemma js_sort_ext {A} (cmp cmp' : A → A → Z) (l : list A) :
  (∀ a b, cmp a b = cmp' a b) → js_sort cmp l = js_sort cmp' l.
Proof.
  intros E. induction l as [|x l IH]; [done|]. cbn [js_sort]. rewrite IH.
  generalize (js_sort cmp' l). clear IH. intros l'.
  induction l' as [|y l' IH']; [done|].
  cbn [js_insert]. by rewrite E, IH'.
Qed.

Lemma fmap_fst_pair {A B} (f : A → B) (l : list A) :
  ((fun k => (k, f k)) <$> l).*1 = l.
Proof. induction l as [|x l IH]; [done|]. rewrite !fmap_cons, IH. done. Qed.

Lemma sort_columns_eq cats :
  sort_columns (fold_left matrix_step (catalog_pairs cats) [])
  = js_sort (fun a b => Z.of_nat (category_count cats b) - Z.of_nat (category_count cats a))
      (Object_keys (fold_left matrix_step (catalog_pairs cats) [])).
Proof.
  unfold sort_columns, column_items. rewrite js_sort_fmap, fmap_fst_pair.
  apply js_sort_ext. intros a b. cbn [snd].
  by rewrite !built_matrix_count.
Qed.

Lemma Object_keys_split {A} (o : jsobj A) :
  ∃ idx, Object_keys o = idx ++ filter (fun k => array_index k = None) o.*1
  ∧ idx ≡ₚ filter (fun k => is_Some (array_index k)) o.*1
  ∧ (∀ i j a b, idx !! i = Some a → idx !! j = Some b → (i < j)%nat →
       (index_value a ≤ index_value b)%N).
Proof.
  eexists. split; [reflexivity|]. split.
  - by rewrite js_sort_perm, index_keys_snd.
  - intros i j a b Hi Hj Hlt.
    apply list_lookup_fmap_Some in Hi as (x & -> & Hx).
    apply list_lookup_fmap_Some in Hj as (y & -> & Hy).
    pose proof (js_sort_sorted (λ a b : N * string, Z.of_N a.1 - Z.of_N b.1)
                  (λ a, Z.of_N a.1) ltac:(intros; lia) (index_keys o.*1)) as Hs.
    pose proof (StronglySorted_lookup _ _ i j x y Hs Hx Hy Hlt) as Hle.
    assert (Hv : ∀ z, z ∈ js_sort (λ a b : N * string, Z.of_N a.1 - Z.of_N b.1)
                        (index_keys o.*1) → index_value z.2 = z.1).
    { intros z Hz. rewrite js_sort_perm in Hz.
      unfold index_value. by rewrite (index_keys_value _ _ Hz). }
    rewrite (Hv x), (Hv y) by (by eapply list_elem_of_lookup_2). simpl in Hle. lia.
Qed.

(** C7 — on a category list whose category and repair-type ids are not
    inherited property names, the column order after Build lists every
    repair-type id of the catalog once, by descending count of the distinct
    category ids that list it: an id with a larger count stands before every
    id with a smaller one (3 categories before 1).  Ids with equal counts
    stand in the order of
    [Object.keys] on the matrix: ids that are array indices first, in
    ascending numeric order, then the other ids in the order of their first
    occurrence in the input.  When no id is an array index, ids with equal
    counts stand in first-occurrence order. *)
Theorem torColumns_order (cats : list SNRCategory) (c : Component) (h : heap) :
  safe_catalog cats = true →
  let r := Build (Some cats) (c, h) in
  let count := category_count cats in
  let ids := encounter_order (tor_ids cats) in
  ∃ m cols idx,
    partsMatrix r.1 = Some m ∧ torColumns r.1 = Some cols
    ∧ cols ≡ₚ ids
    ∧ (∀ i j a b, cols !! i = Some a → cols !! j = Some b →
         (count b < count a)%nat → (i < j)%nat)
    ∧ (∀ n, filter (fun t => count t = n) cols
            = filter (fun t => count t = n) (Object_keys m))
    ∧ Object_keys m = idx ++ filter (fun k => array_index k = None) ids
    ∧ idx ≡ₚ filter (fun k => is_Some (array_index k)) ids
    ∧ (∀ i j a b, idx !! i = Some a → idx !! j = Some b → (i < j)%nat →
         (index_value a ≤ index_value b)%N)
    ∧ ((∀ t, t ∈ ids → array_index t = None) →
       ∀ n, filter (fun t => count t = n) cols = filter (fun t => count t = n) ids).
Proof.
  intros Hsafe r count ids.
  destruct (createPartsMatrix_Some cats (set_categories (Some cats) c) h eq_refl Hsafe)
    as (c' & _ & E).
  unfold r, Build. cbn [fst snd]. rewrite E. cbn [fst snd]. clear E r.
  set (m := fold_left matrix_step (catalog_pairs cats) []).
  assert (Hkeys : m.*1 = ids) by apply built_matrix_keys.
  destruct (Object_keys_split m) as (idx & Hsplit & Hperm & Hidx).
  rewrite Hkeys in Hsplit, Hperm.
  set (cmp := fun a b : string => Z.of_nat (count b) - Z.of_nat (count a)).
  set (g := fun a : string => - Z.of_nat (count a)).
  assert (Hcmp : ∀ a b, cmp a b ≤ 0 ↔ g a ≤ g b) by (intros; unfold cmp, g; lia).
  assert (Hcols : sort_columns m = js_sort cmp (Object_keys m))
    by apply sort_columns_eq.
  assert (Hstable : ∀ n, filter (λ t, count t = n) (sort_columns m)
                         = filter (λ t, count t = n) (Object_keys m)).
  { intros n. rewrite Hcols.
    rewrite (list_filter_iff (λ t, count t = n) (λ t, g t = - Z.of_nat n))
      by (intros; unfold g; lia).
    rewrite (js_sort_stable cmp g Hcmp).
    apply list_filter_iff. intros; unfold g; lia. }
  exists m, (sort_columns m), idx. simpl.
  split; [done|]. split; [done|]. split; [|split; [|split; [|split; [|split; [|split]]]]].
  - by rewrite Hcols, js_sort_perm, Object_keys_perm, Hkeys.
  - intros i j a b Hi Hj Hlt. rewrite Hcols in Hi, Hj.
    destruct (decide (i < j)%nat) as [|Hge]; [done|]. exfalso.
    destruct (decide (i = j)) as [->|Hne].
    + rewrite Hi in Hj. injection Hj as ->. lia.
    + pose proof (js_sort_sorted cmp g Hcmp (Object_keys m)) as Hs.
      assert (g b ≤ g a)
        by (apply (StronglySorted_lookup _ _ j i b a Hs Hj Hi); lia).
      unfold g in *. lia.
  - exact Hstable.
  - exact Hsplit.
  - exact Hperm.
  - exact Hidx.
  - intros Hno n. rewrite Hstable. f_equal. rewrite <- Hkeys.
    apply Object_keys_no_index. by rewrite Hkeys.
Qed.

Lemma torColumns_order_witness :
  let h : heap := fun _ => mkPart "P1" "A" None None in
  let cats := [mkCategory "C1" "Engine" (Some [mkTOR "T1" "Overhaul" [1%nat] [2%nat]]);
               mkCategory "C2" "Gearbox" (Some [mkTOR "T2" "Repair" [] [];
                                                mkTOR "T1" "Overhaul" [] []])] in
  let r := Build (Some cats) (newComponent "k", h) in
  let count := category_count cats in
  let ids := encounter_order (tor_ids cats) in
  ∃ m cols idx,
    partsMatrix r.1 = Some m ∧ torColumns r.1 = Some cols
    ∧ cols ≡ₚ ids
    ∧ (∀ i j a b, cols !! i = Some a → cols !! j = Some b →
         (count b < count a)%nat → (i < j)%nat)
    ∧ (∀ n, filter (fun t => count t = n) cols
            = filter (fun t => count t = n) (Object_keys m))
    ∧ Object_keys m = idx ++ filter (fun k => array_index k = None) ids
    ∧ idx ≡ₚ filter (fun k => is_Some (array_index k)) ids
    ∧ (∀ i j a b, idx !! i = Some a → idx !! j = Some b → (i < j)%nat →
         (index_value a ≤ index_value b)%N)
    ∧ ((∀ t, t ∈ ids → array_index t = None) →
       ∀ n, filter (fun t => count t = n) cols = filter (fun t => count t = n) ids).
Proof.
  intros h cats.
  exact (torColumns_order cats (newComponent "k") h eq_refl).
Defined.

(** C7, as stated, fails on ties: with repair-types [2] and [1] listed in
    that order under one category, both have count 1 and the columns are
    [1; 2], not the first-occurrence order [2; 1].  It also fails on ids that
    are inherited property names: with the repair-type id and the category id
    both [__proto__] the build throws and no column order is produced. *)
Lemma torColumns_ties_not_in_encounter_order :
  let h : heap := fun _ => mkPart "P" "A" None None in
  let cats := [mkCategory "C" "c"
                 (Some [mkTOR "2" "two" [] []; mkTOR "1" "one" [] []])] in
  let inherited := [mkCategory "__proto__" "x" (Some [mkTOR "__proto__" "y" [] []])] in
  torColumns (Build (Some cats) (newComponent "k", h)).1 = Some ["1"; "2"]
  ∧ encounter_order (tor_ids cats) = ["2"; "1"]
  ∧ category_count cats "1" = 1%nat
  ∧ category_count cats "2" = 1%nat
  ∧ Build_completion (Some inherited) (newComponent "k", h) = TypeError
  ∧ torColumns (Build (Some inherited) (newComponent "k", h)).1 = None.
Proof. by repeat split. Qed.

(** * A worked scenario *)

(** Category [C1] has repair-type [T1] with included part [P1/A] and excluded
    part [P2/B].  After the build the cell (T1, C1) holds both lists and [P2]
    carries the exclusion flag; selecting [P1] records quantity 1 under the
    key [k_C1_T1_P1_A], and the category counts as fully selected only once
    [P2] is selected too. *)
Example scenario_select_P1 :
  let h : heap := fun l =>
    if decide (l = 1%nat) then mkPart "P1" "A" None None
    else mkPart "P2" "B" None None in
  let C1 := mkCategory "C1" "Engine" (Some [mkTOR "T1" "Overhaul" [1%nat] [2%nat]]) in
  let s0 := Build (Some [C1]) (newComponent "k", h) in
  let s1 := ToggleParts [1%nat] "C1" "T1" true s0 in
  let s2 := ToggleParts [2%nat] "C1" "T1" true s1 in
  partsMatrix s0.1
    = Some [("T1", [("C1", mkCell (Some [1%nat]) (Some [2%nat]))])]
  ∧ torColumns s0.1 = Some ["T1"]
  ∧ isExcluded (s0.2 2%nat) = Some true
  ∧ selectedParts s1.1 !! "k_C1_T1_P1_A"
    = Some (mkCategorizedPart "C1" "T1" (mkPart "P1" "A" None (Some 1)))
  ∧ isAllPartsInCategorySelected s1.1 s1.2 C1 = Some false
  ∧ isAllPartsInCategorySelected s2.1 s2.2 C1 = Some true.
Proof. by vm_compute. Qed.

(** * Further properties *)

(** ** Composite keys *)

Lemma append_nil_l (s : string) : "" +:+ s = s.
Proof. reflexivity. Qed.

Lemma append_cons_l (x : ascii) (a s : string) :
  String x a +:+ s = String x (a +:+ s).
Proof. reflexivity. Qed.

Lemma append_inj_l (s a b : string) : s +:+ a = s +:+ b → a = b.
Proof.
  induction s as [|x s IH]; rewrite ?append_nil_l, ?append_cons_l; [done|].
  intros [= H]. by apply IH.
Qed.

Lemma split_at_underscore (a a' r r' : string) :
  no_underscore a = true → no_underscore a' = true →
  a +:+ "_" +:+ r = a' +:+ "_" +:+ r' → a = a' ∧ r = r'.
Proof.
  revert a'. induction a as [|x a IH]; intros [|x' a'];
    rewrite ?append_nil_l, ?append_cons_l, ?append_nil_l; cbn [no_underscore].
  - intros _ _ [= ->]. done.
  - intros _ [Hx _]%andb_prop [= <- _].
    by apply bool_decide_eq_true_1 in Hx.
  - intros [Hx _]%andb_prop _ [= -> _].
    by apply bool_decide_eq_true_1 in Hx.
  - intros [_ Ha]%andb_prop [_ Ha']%andb_prop [= -> H].
    destruct (IH a' Ha Ha' H) as [-> ->]. done.
Qed.

Lemma getUKey_inj (c : Component) (cat tor cat' tor' : string) (p p' : Part) :
  no_underscore cat = true → no_underscore tor = true →
  no_underscore (partNumber p) = true →
  no_underscore cat' = true → no_underscore tor' = true →
  no_underscore (partNumber p') = true →
  getUKey c cat tor p = getUKey c cat' tor' p' →
  cat = cat' ∧ tor = tor' ∧ partNumber p = partNumber p' ∧ sOS p = sOS p'.
Proof.
  intros Hc Ht Hp Hc' Ht' Hp' E. unfold getUKey in E.
  apply append_inj_l in E. rewrite !append_cons_l, !append_nil_l in E.
  injection E as E.
  apply split_at_underscore in E as [-> E]; [|done..].
  apply split_at_underscore in E as [-> E]; [|done..].
  apply split_at_underscore in E as [-> ->]; done.
Qed.

(** X1 — [getUKey] separates selectable units whose category id,
    repair-type id and part number contain no underscore: equal keys (under
    the same prefix) force equal category id, repair-type id, part number and
    [sOS]. *)
Theorem getUKey_injective (c : Component) (cat tor cat' tor' : string) (p p' : Part) :
  no_underscore cat = true → no_underscore tor = true →
  no_underscore (partNumber p) = true →
  no_underscore cat' = true → no_underscore tor' = true →
  no_underscore (partNumber p') = true →
  getUKey c cat tor p = getUKey c cat' tor' p' →
  cat = cat' ∧ tor = tor' ∧ partNumber p = partNumber p' ∧ sOS p = sOS p'.
Proof.
  intros Hc Ht Hp Hc' Ht' Hp' E. unfold getUKey in E.
  apply append_inj_l in E. rewrite !append_cons_l, !append_nil_l in E.
  injection E as E.
  apply split_at_underscore in E as [-> E]; [|done..].
  apply split_at_underscore in E as [-> E]; [|done..].
  apply split_at_underscore in E as [-> ->]; done.
Qed.

Lemma getUKey_injective_witness :
  "C1" = "C1" ∧ "T1" = "T1"
  ∧ partNumber (mkPart "P1" "A_1" None None) = partNumber (mkPart "P1" "A_1" (Some true) (Some 3))
  ∧ sOS (mkPart "P1" "A_1" None None) = sOS (mkPart "P1" "A_1" (Some true) (Some 3)).
Proof.
  apply (getUKey_injective (newComponent "k_0") "C1" "T1" "C1" "T1"
           (mkPart "P1" "A_1" None None) (mkPart "P1" "A_1" (Some true) (Some 3)));
    reflexivity.
Defined.

(** ** Toggling and the queries *)

Lemma toggle_frame parts cat tor checked c h :
  let s' := updateSelectedParts parts cat tor checked (c, h) in
  s'.1 = set_selectedParts (selectedParts s'.1) c
  ∧ (∀ l, same_ident (h l) (s'.2 l)).
Proof.
  destruct checked.
  - pose proof (select_inv_holds cat tor parts c h) as [Hf Hi _ _ _ _ _]. done.
  - destruct (deselect_holds cat tor parts c h) as [Hh Hc]. cbv zeta.
    rewrite Hh, Hc. split; [done|]. intros l. by repeat split.
Qed.

Lemma toggle_key parts cat tor checked c h cat' tor' l :
  let s' := updateSelectedParts parts cat tor checked (c, h) in
  getUKey s'.1 cat' tor' (s'.2 l) = getUKey c cat' tor' (h l).
Proof.
  destruct (toggle_frame parts cat tor checked c h) as [Hf Hi]. cbv zeta.
  apply getUKey_same_ident; [by rewrite Hf|apply Hi].
Qed.

Lemma toggle_on_lookup parts cat tor c h k e :
  selectedParts (updateSelectedParts parts cat tor true (c, h)).1 !! k = Some e →
  (selectedParts c !! k = Some e
   ∧ (k ∉ (fun l => getUKey c cat tor (h l)) <$> parts))
  ∨ (∃ l, l ∈ parts ∧ getUKey c cat tor (h l) = k
          ∧ e = mkCategorizedPart cat tor
                  (set_qty (recorded_qty (selectedParts c) k) (h l))).
Proof.
  intros He.
  destruct (decide (k ∈ (fun l => getUKey c cat tor (h l)) <$> parts)) as [Hin|Hout].
  - right. apply list_elem_of_fmap in Hin as (l & -> & Hl).
    destruct (select_entry parts cat tor c h l Hl) as (l' & Hl' & Hk & E).
    cbv zeta in Hk, E. rewrite E in He. injection He as <-. by exists l'.
  - left. pose proof (select_inv_holds cat tor parts c h) as [_ _ _ _ _ Hk _].
    by rewrite <- (Hk k Hout).
Qed.

Lemma toggle_off_lookup parts cat tor c h k :
  selectedParts (updateSelectedParts parts cat tor false (c, h)).1 !! k
  = if decide (k ∈ (fun l => getUKey c cat tor (h l)) <$> parts)
    then None else selectedParts c !! k.
Proof.
  destruct (deselect_holds cat tor parts c h) as [_ Hc]. rewrite Hc. simpl.
  rewrite lookup_foldr_delete, fmap_reverse.
  destruct (decide (k ∈ reverse ((λ l, getUKey c cat tor (h l)) <$> parts))) as [H|H],
           (decide (k ∈ (λ l, getUKey c cat tor (h l)) <$> parts)) as [H'|H'];
    try done; rewrite elem_of_reverse in H; done.
Qed.

(** X2 — select and look up: after [updateSelectedParts] with
    [checked = true] every input part answers [isSelected] with true, after
    [checked = false] with false, whatever the registry held. *)
Theorem toggle_isSelected (parts : list loc) (category : SNRCategory)
    (tor : string) (c : Component) (h : heap) :
  let on := updateSelectedParts parts (categoryId category) tor true (c, h) in
  let off := updateSelectedParts parts (categoryId category) tor false (c, h) in
  (∀ l, l ∈ parts → isSelected on.1 on.2 category tor l = true)
  ∧ (∀ l, l ∈ parts → isSelected off.1 off.2 category tor l = false).
Proof.
  split; intros l Hl; unfold isSelected; rewrite toggle_key.
  - apply bool_decide_eq_true_2.
    destruct (select_entry parts (categoryId category) tor c h l Hl)
      as (l' & _ & _ & E). by eexists.
  - apply bool_decide_eq_false_2. rewrite toggle_off_lookup, decide_True.
    + by intros [? ?].
    + by apply (list_elem_of_fmap_2 (λ l, getUKey c (categoryId category) tor (h l))).
Qed.

(** X3 — what a toggle never writes: of the component only
    [selectedParts] changes (the checked registry, the matrix, the columns,
    the id tables and the inputs stay), and no part's [partNumber], [sOS] or
    [isExcluded] changes, so composite keys computed before stay valid. *)
Theorem toggle_writes_only_selection (parts : list loc) (cat tor : string)
    (checked : bool) (c : Component) (h : heap) :
  let s' := updateSelectedParts parts cat tor checked (c, h) in
  s'.1 = set_selectedParts (selectedParts s'.1) c
  ∧ (∀ l, partNumber (s'.2 l) = partNumber (h l) ∧ sOS (s'.2 l) = sOS (h l)
          ∧ isExcluded (s'.2 l) = isExcluded (h l))
  ∧ (∀ cat' tor' l, getUKey s'.1 cat' tor' (s'.2 l) = getUKey c cat' tor' (h l)).
Proof.
  destruct (toggle_frame parts cat tor checked c h) as [Hf Hi].
  split; [done|]. split; [exact Hi|]. intros. apply toggle_key.
Qed.

(** X4 — deselecting forgets the quantity: selecting parts again after
    deselecting them records quantity 1 for each, in the registry and on the
    part record; and deselecting after selecting leaves the registry that
    deselecting alone leaves. *)
Theorem deselect_forgets_quantity (parts : list loc) (cat tor : string)
    (c : Component) (h : heap) :
  let key := fun l => getUKey c cat tor (h l) in
  let off := updateSelectedParts parts cat tor false (c, h) in
  let again := updateSelectedParts parts cat tor true off in
  let on := updateSelectedParts parts cat tor true (c, h) in
  (∀ l, l ∈ parts →
     (∃ e, selectedParts again.1 !! key l = Some e ∧ qty (cpPart e) = Some 1)
     ∧ qty (again.2 l) = Some 1)
  ∧ selectedParts (updateSelectedParts parts cat tor false on).1
    = selectedParts off.1.
Proof.
  intros key off again on. split.
  - intros l Hl. unfold again.
    destruct off as [c0 h0] eqn:Eoff.
    assert (Hk : ∀ l, getUKey c0 cat tor (h0 l) = key l).
    { intros l0. pose proof (toggle_key parts cat tor false c h cat tor l0) as H.
      cbv zeta in H. fold off in H. by rewrite Eoff in H. }
    assert (Hnone : selectedParts c0 !! key l = None).
    { pose proof (toggle_off_lookup parts cat tor c h (key l)) as H.
      fold off in H. rewrite Eoff in H. simpl in H. rewrite H, decide_True; [done|].
      by apply (list_elem_of_fmap_2 key). }
    assert (Hrec : recorded_qty (selectedParts c0) (key l) = Some 1)
      by (unfold recorded_qty; by rewrite Hnone).
    split.
    + destruct (select_entry parts cat tor c0 h0 l Hl) as (l' & _ & _ & E).
      cbv zeta in E. rewrite Hk in E. rewrite Hrec in E. by eexists.
    + pose proof (select_inv_holds cat tor parts c0 h0) as [_ _ Hq _ _ _ _].
      rewrite (Hq l Hl), Hk. exact Hrec.
  - apply map_eq. intros k. unfold off, on.
    destruct (updateSelectedParts parts cat tor true (c, h)) as [c1 h1] eqn:Eon.
    rewrite !toggle_off_lookup.
    assert (Hks : (λ l, getUKey c1 cat tor (h1 l)) <$> parts = key <$> parts).
    { apply list_fmap_ext. intros _ l _.
      pose proof (toggle_key parts cat tor true c h cat tor l) as H.
      cbv zeta in H. by rewrite Eon in H. }
    rewrite Hks. fold key. destruct (decide (k ∈ key <$> parts)) as [|Hout]; [done|].
    pose proof (select_inv_holds cat tor parts c h) as [_ _ _ _ _ Ho _].
    rewrite Eon in Ho. by apply Ho.
Qed.

(** X5 — a quantity set with [qtyChanged] survives re-selection: selecting
    parts after [qtyChanged q] records [q] for every part whose key was
    selected, and 1 for the others, in the registry and on the part record. *)
Theorem requantified_selection (q : Z) (parts : list loc) (cat tor : string)
    (c : Component) (h : heap) :
  let key := fun l => getUKey c cat tor (h l) in
  let on := updateSelectedParts parts cat tor true (qtyChanged q c, h) in
  let expected := fun l => if decide (is_Some (selectedParts c !! key l))
                           then Some q else Some 1 in
  ∀ l, l ∈ parts →
    (∃ e, selectedParts on.1 !! key l = Some e ∧ qty (cpPart e) = expected l)
    ∧ qty (on.2 l) = expected l.
Proof.
  intros key on expected l Hl.
  assert (Hrec : recorded_qty (selectedParts (qtyChanged q c)) (key l) = expected l).
  { unfold recorded_qty, expected. simpl. rewrite lookup_fmap.
    by destruct (selectedParts c !! key l) as [e|] eqn:E. }
  split.
  - destruct (select_entry parts cat tor (qtyChanged q c) h l Hl) as (l' & _ & _ & E).
    cbv zeta in E. change (getUKey (qtyChanged q c) cat tor (h l)) with (key l) in E.
    rewrite Hrec in E. by eexists.
  - pose proof (select_inv_holds cat tor parts (qtyChanged q c) h) as [_ _ Hq _ _ _ _].
    unfold on. rewrite (Hq l Hl). exact Hrec.
Qed.

Lemma requantified_selection_witness :
  let h : heap := fun _ => mkPart "P1" "A" None None in
  let c := (updateSelectedParts [1%nat] "C1" "T1" true (newComponent "k", h)).1 in
  let on := updateSelectedParts [1%nat; 2%nat] "C1" "T1" true (qtyChanged 5 c, h) in
  (∃ e, selectedParts on.1 !! "k_C1_T1_P1_A" = Some e ∧ qty (cpPart e) = Some 5)
  ∧ qty (on.2 1%nat) = Some 5.
Proof.
  intros h c on.
  apply (requantified_selection 5 [1%nat; 2%nat] "C1" "T1" c h 1%nat).
  by left.
Defined.

(** ** An invariant of the selected registry *)

Global Instance registry_ok_dec c : Decision (registry_ok c).
Proof.
  apply (map_Forall_dec (fun k e => priceKey c e = k ∧ is_Some (qty (cpPart e)))).
Defined.

Lemma registry_ok_frame c c' :
  uKeyPrefix c' = uKeyPrefix c → selectedParts c' = selectedParts c →
  registry_ok c → registry_ok c'.
Proof.
  intros Hp Hs Hok k e. rewrite Hs. intros He. destruct (Hok k e He) as [Hk Hq].
  split; [|done]. unfold priceKey, getUKey in *. by rewrite Hp.
Qed.

Lemma registry_ok_toggle parts cat tor checked c h :
  registry_ok c → registry_ok (updateSelectedParts parts cat tor checked (c, h)).1.
Proof.
  intros Hok k e He.
  destruct (toggle_frame parts cat tor checked c h) as [Hf _].
  assert (Hp : ∀ e', priceKey (updateSelectedParts parts cat tor checked (c, h)).1 e'
                     = priceKey c e').
  { intros e'. unfold priceKey, getUKey. by rewrite Hf. }
  rewrite Hp. destruct checked.
  - apply toggle_on_lookup in He as [[He _]|(l & _ & Hk & ->)]; [by apply Hok|].
    split; [done|]. simpl. unfold recorded_qty.
    destruct (selectedParts c !! k) as [prev|] eqn:E; [|by eexists].
    by destruct (Hok k prev E).
  - rewrite toggle_off_lookup in He. destruct (decide _); [done|]. by apply Hok.
Qed.

Lemma registry_ok_bulk checked cid tors s :
  registry_ok s.1 →
  registry_ok (fold_left (fun s tor =>
      updateSelectedParts (partsIncluded tor ++ partsExcluded tor)
        cid (torId tor) checked s) tors s).1.
Proof.
  revert s. induction tors as [|t tors IH]; intros [c h] Hok; [done|].
  cbn [fold_left]. apply IH.
  destruct (updateSelectedParts _ _ _ _ _) as [c1 h1] eqn:E.
  pose proof (registry_ok_toggle (partsIncluded t ++ partsExcluded t) cid (torId t)
                checked c h Hok) as H.
  by rewrite E in H.
Qed.

Lemma updatePricesInfo_frame c :
  updatePricesInfo c = set_checkedParts (checkedParts (updatePricesInfo c)) c.
Proof. unfold updatePricesInfo. rewrite overlay_fold. by destruct c. Qed.

Lemma createPartsMatrix_frame c h :
  uKeyPrefix (createPartsMatrix (c, h)).2.1 = uKeyPrefix c
  ∧ selectedParts (createPartsMatrix (c, h)).2.1 = selectedParts c
  ∧ checkedParts (createPartsMatrix (c, h)).2.1 = checkedParts c.
Proof.
  destruct (createPartsMatrix_grow c h) as (H1 & H2 & H3 & _). done.
Qed.

(** X6 — every operation of the component keeps the selected registry
    well formed: each entry sits under the composite key of its own category
    id, repair-type id, part number and [sOS], and carries a quantity; for
    [createPartsMatrix] this holds of the state that goes with its
    completion, whichever that is. *)
Theorem registry_ok_preserved (c : Component) (h : heap) :
  registry_ok c →
  (∀ parts cat tor checked,
     registry_ok (updateSelectedParts parts cat tor checked (c, h)).1)
  ∧ (∀ checked category tor part all,
       registry_ok (onPartSelectionChanged checked category tor part all (c, h)).1.1)
  ∧ (∀ checked category s',
       changeSelectionOnPartsInCategory checked category (c, h) = Some s' →
       registry_ok s'.1)
  ∧ (∀ q, registry_ok (qtyChanged q c))
  ∧ registry_ok (updatePricesInfo c)
  ∧ registry_ok (clearSelections c)
  ∧ registry_ok (createPartsMatrix (c, h)).2.1
  ∧ (∀ changes sel s', ngOnChanges changes sel (c, h) = Some s' → registry_ok s'.1).
Proof.
  intros Hok.
  assert (Hbulk : ∀ checked category s s',
            registry_ok s.1 →
            changeSelectionOnPartsInCategory checked category s = Some s' →
            registry_ok s'.1).
  { intros checked category s s' Hs. unfold changeSelectionOnPartsInCategory.
    destruct (repairTypes category) as [tors|]; [|done].
    intros [= <-]. by apply registry_ok_bulk. }
  assert (Hprices : ∀ c0, registry_ok c0 → registry_ok (updatePricesInfo c0)).
  { intros c0. apply registry_ok_frame; by rewrite updatePricesInfo_frame. }
  assert (Hclear : ∀ c0, registry_ok (clearSelections c0)) by (by intros c0 k e).
  assert (Hbuild : ∀ c0 h0, registry_ok c0 → registry_ok (createPartsMatrix (c0, h0)).2.1).
  { intros c0 h0. destruct (createPartsMatrix_frame c0 h0) as (H1 & H2 & _).
    by apply registry_ok_frame. }
  split; [intros; by apply registry_ok_toggle|].
  split; [intros; by apply registry_ok_toggle|].
  split; [intros checked category s'; by apply Hbulk|].
  split.
  { intros q k e. simpl. rewrite lookup_fmap.
    destruct (selectedParts c !! k) as [e0|] eqn:E; [|done].
    intros [= <-]. destruct (Hok k e0 E) as [Hk _]. split; [exact Hk|by eexists]. }
  split; [by apply Hprices|]. split; [apply Hclear|]. split; [by apply Hbuild|].
  intros changes sel s'. unfold ngOnChanges. cbn [fst snd].
  set (r := if changed (chCategories changes)
            then createPartsMatrix (clearSelections c, h) else (Normal, (c, h))).
  assert (H1 : registry_ok r.2.1).
  { unfold r. destruct (changed (chCategories changes)); [|done].
    apply Hbuild, Hclear. }
  destruct r as [k s1]. cbn [fst snd] in H1. destruct k; [|done..].
  set (s2 := if changed (chPartsPrices changes)
             then (updatePricesInfo s1.1, s1.2) else s1).
  assert (H2 : registry_ok s2.1).
  { unfold s2. destruct (changed (chPartsPrices changes)); [|done].
    by apply Hprices. }
  destruct (changed (chCategorySelection changes)).
  - destruct sel as [[checked category]|]; [|done]. by apply Hbulk.
  - by intros [= <-].
Qed.

Lemma registry_ok_preserved_witness :
  let h : heap := fun _ => mkPart "P1" "A" None None in
  let c := (updateSelectedParts [1%nat] "C1" "T1" true (newComponent "k", h)).1 in
  registry_ok (qtyChanged 4 c).
Proof.
  intros h c.
  refine (proj1 (proj2 (proj2 (proj2 (registry_ok_preserved c h _)))) 4).
  apply (bool_decide_unpack _). by vm_compute.
Defined.

(** ** Bulk toggles and the category aggregate *)

Lemma same_ident_trans p1 p2 p3 :
  same_ident p1 p2 → same_ident p2 p3 → same_ident p1 p3.
Proof. intros (?&?&?) (?&?&?). repeat split; congruence. Qed.

Lemma isAll_true_iff c h cid title tors :
  isAllPartsInCategorySelected c h (mkCategory cid title (Some tors)) = Some true
  ↔ ∀ t, t ∈ tors → ∀ l, l ∈ partsIncluded t ++ partsExcluded t →
      is_Some (selectedParts c !! getUKey c cid (torId t) (h l)).
Proof.
  unfold isAllPartsInCategorySelected. simpl. split.
  - intros [= H] t Ht l Hl. rewrite forallb_elem_of in H.
    specialize (H _ (list_elem_of_fmap_2 _ tors t Ht)).
    rewrite forallb_elem_of in H. exact (bool_decide_eq_true_1 _ (H l Hl)).
  - intros H. f_equal. apply forallb_elem_of. intros b Hb.
    apply list_elem_of_fmap in Hb as (t & -> & Ht).
    apply forallb_elem_of. intros l Hl. apply bool_decide_eq_true_2. by apply (H t).
Qed.

Lemma category_keys_snoc c h cid tors t :
  category_keys c h cid (tors ++ [t])
  = category_keys c h cid tors
    ++ ((fun l => getUKey c cid (torId t) (h l)) <$> (partsIncluded t ++ partsExcluded t)).
Proof.
  unfold category_keys. rewrite bind_app. f_equal.
  rewrite bind_cons. simpl. by rewrite app_nil_r.
Qed.

Lemma elem_of_category_keys c h cid tors k :
  k ∈ category_keys c h cid tors
  ↔ ∃ t l, t ∈ tors ∧ l ∈ partsIncluded t ++ partsExcluded t
           ∧ k = getUKey c cid (torId t) (h l).
Proof.
  unfold category_keys. rewrite list_elem_of_bind. split.
  - intros (t & Hk & Ht). apply list_elem_of_fmap in Hk as (l & -> & Hl).
    by exists t, l.
  - intros (t & l & Ht & Hl & ->). exists t. split; [|done].
    by apply (list_elem_of_fmap_2 (λ l, getUKey c cid (torId t) (h l))).
Qed.

Lemma bulk_on_inv cid tors c h :
  let s' := bulkToggle true cid tors (c, h) in
  s'.1 = set_selectedParts (selectedParts s'.1) c
  ∧ (∀ l, same_ident (h l) (s'.2 l))
  ∧ (∀ k, recorded_qty (selectedParts s'.1) k = recorded_qty (selectedParts c) k)
  ∧ (∀ k, k ∈ category_keys c h cid tors →
       ∃ e, selectedParts s'.1 !! k = Some e ∧ cpCategoryId e = cid
            ∧ qty (cpPart e) = recorded_qty (selectedParts c) k)
  ∧ (∀ k, k ∉ category_keys c h cid tors →
       selectedParts s'.1 !! k = selectedParts c !! k).
Proof.
  induction tors as [|t tors IH] using rev_ind.
  - cbv zeta. simpl. split; [by destruct c|]. split; [by intros; repeat split|].
    split; [done|]. split; [|done]. intros k Hk. by apply elem_of_nil in Hk.
  - cbv zeta in *. unfold bulkToggle in *. rewrite fold_left_app. cbn [fold_left].
    destruct (fold_left _ tors (c, h)) as [c1 h1].
    simpl in IH. destruct IH as (Hf & Hi & Hr & Hin & Hout).
    set (parts := partsIncluded t ++ partsExcluded t).
    pose proof (select_inv_holds cid (torId t) parts c1 h1) as [Hf' Hi' _ _ Hr' Ho' _].
    assert (Hkeys : (λ l, getUKey c1 cid (torId t) (h1 l)) <$> parts
                    = (λ l, getUKey c cid (torId t) (h l)) <$> parts).
    { apply list_fmap_ext. intros _ l _. apply getUKey_same_ident; [|apply Hi].
      by rewrite Hf. }
    rewrite Hkeys in Ho'.
    split; [rewrite Hf' at 1; rewrite Hf; by destruct c|].
    split; [intros l; by eapply same_ident_trans|].
    split; [intros k; by rewrite Hr', Hr|].
    split.
    + intros k. rewrite category_keys_snoc. fold parts.
      destruct (decide (k ∈ (λ l, getUKey c cid (torId t) (h l)) <$> parts))
        as [Hk|Hk].
      * intros _. rewrite <- Hkeys in Hk.
        apply list_elem_of_fmap in Hk as (l & -> & Hl).
        destruct (select_entry parts cid (torId t) c1 h1 l Hl) as (l' & _ & _ & E).
        cbv zeta in E. eexists. split; [exact E|]. split; [done|]. simpl. apply Hr.
      * intros [Hk'|Hk']%elem_of_app; [|done]. rewrite (Ho' k Hk). by apply Hin.
    + intros k. rewrite category_keys_snoc. fold parts.
      intros [Hk1 Hk2]%not_elem_of_app. rewrite (Ho' k Hk2). by apply Hout.
Qed.

Lemma bulk_off_inv cid tors c h :
  let s' := bulkToggle false cid tors (c, h) in
  s'.2 = h
  ∧ s'.1 = set_selectedParts (selectedParts s'.1) c
  ∧ (∀ k, selectedParts s'.1 !! k
          = if decide (k ∈ category_keys c h cid tors) then None
            else selectedParts c !! k).
Proof.
  induction tors as [|t tors IH] using rev_ind.
  - cbv zeta. simpl. split; [done|]. split; [by destruct c|]. intros k.
    destruct (decide (k ∈ category_keys c h cid [])) as [Hk|]; [|done].
    by apply elem_of_nil in Hk.
  - cbv zeta in *. unfold bulkToggle in *. rewrite fold_left_app. cbn [fold_left].
    destruct (fold_left _ tors (c, h)) as [c1 h1].
    simpl in IH. destruct IH as (-> & Hf & Hl).
    set (parts := partsIncluded t ++ partsExcluded t).
    destruct (toggle_frame parts cid (torId t) false c1 h) as [Hf' _].
    destruct (deselect_holds cid (torId t) parts c1 h) as [Hh _].
    split; [exact Hh|]. split; [rewrite Hf' at 1; rewrite Hf; by destruct c|].
    intros k. rewrite toggle_off_lookup, Hl, category_keys_snoc. fold parts.
    assert (Hkeys : (λ l, getUKey c1 cid (torId t) (h l)) <$> parts
                    = (λ l, getUKey c cid (torId t) (h l)) <$> parts).
    { apply list_fmap_ext. intros _ l _. unfold getUKey. by rewrite Hf. }
    rewrite Hkeys.
    destruct (decide (k ∈ (λ l, getUKey c cid (torId t) (h l)) <$> parts)) as [H1|H1],
             (decide (k ∈ category_keys c h cid tors)) as [H2|H2],
             (decide (k ∈ category_keys c h cid tors
                        ++ ((λ l, getUKey c cid (torId t) (h l)) <$> parts))) as [H3|H3];
      try done; exfalso; rewrite elem_of_app in H3; tauto.
Qed.

(** X7 — bulk selection ([changeSelectionOnPartsInCategory] with
    [checked = true]) makes the category fully selected: afterwards
    [isAllPartsInCategorySelected] answers true, every key of the category
    holds an entry of that category with the quantity stored before, or 1,
    keys outside the category and the checked registry are untouched. *)
Theorem bulk_select_fully_selected (cid title : string) (tors : list TOR)
    (c : Component) (h : heap) :
  let category := mkCategory cid title (Some tors) in
  ∃ s', changeSelectionOnPartsInCategory true category (c, h) = Some s'
  ∧ isAllPartsInCategorySelected s'.1 s'.2 category = Some true
  ∧ (∀ k, k ∈ category_keys c h cid tors →
       ∃ e, selectedParts s'.1 !! k = Some e ∧ cpCategoryId e = cid
            ∧ qty (cpPart e) = match selectedParts c !! k with
                               | Some prev => qty (cpPart prev)
                               | None => Some 1
                               end)
  ∧ (∀ k, k ∉ category_keys c h cid tors →
       selectedParts s'.1 !! k = selectedParts c !! k)
  ∧ checkedParts s'.1 = checkedParts c.
Proof.
  intros category. exists (bulkToggle true cid tors (c, h)). split; [done|].
  destruct (bulk_on_inv cid tors c h) as (Hf & Hi & _ & Hin & Hout).
  split; [|split; [exact Hin|split; [exact Hout|by rewrite Hf]]].
  apply isAll_true_iff. intros t Ht l Hl.
  rewrite (getUKey_same_ident cid (torId t) c _ (h l) _ (f_equal uKeyPrefix Hf) (Hi l)).
  destruct (Hin (getUKey c cid (torId t) (h l))) as (e & He & _).
  - apply elem_of_category_keys. by exists t, l.
  - by eexists.
Qed.

(** X8 — bulk deselection removes exactly the keys of the category's
    parts and writes no part record; afterwards the category counts as fully
    selected only if none of its repair-types has a part. *)
Theorem bulk_deselect_clears_category (cid title : string) (tors : list TOR)
    (c : Component) (h : heap) :
  let category := mkCategory cid title (Some tors) in
  ∃ s', changeSelectionOnPartsInCategory false category (c, h) = Some s'
  ∧ s'.2 = h
  ∧ (∀ k, selectedParts s'.1 !! k
          = if decide (k ∈ category_keys c h cid tors) then None
            else selectedParts c !! k)
  ∧ (isAllPartsInCategorySelected s'.1 s'.2 category = Some true
     ↔ ∀ t, t ∈ tors → partsIncluded t = [] ∧ partsExcluded t = []).
Proof.
  intros category. exists (bulkToggle false cid tors (c, h)). split; [done|].
  destruct (bulk_off_inv cid tors c h) as (Hh & Hf & Hl).
  split; [exact Hh|]. split; [exact Hl|].
  unfold category. rewrite isAll_true_iff, Hh.
  assert (Hkey : ∀ t l, getUKey (bulkToggle false cid tors (c, h)).1 cid (torId t) (h l)
                        = getUKey c cid (torId t) (h l)).
  { intros. unfold getUKey. by rewrite Hf. }
  split.
  - intros H t Ht.
    destruct (partsIncluded t ++ partsExcluded t) as [|l ls] eqn:E.
    + by apply app_eq_nil in E.
    + exfalso. destruct (H t Ht l) as [e He]; [rewrite E; by left|].
      rewrite Hkey, Hl, decide_True in He; [done|].
      apply elem_of_category_keys. exists t, l. rewrite E. split; [done|].
      split; [by left|done].
  - intros H t Ht l Hin. destruct (H t Ht) as [E1 E2].
    rewrite E1, E2 in Hin. by apply elem_of_nil in Hin.
Qed.

(** ** The selection event *)

Lemma toggle_on_present parts cat tor c h l :
  l ∈ parts →
  is_Some (selectedParts (updateSelectedParts parts cat tor true (c, h)).1
             !! getUKey c cat tor (h l)).
Proof.
  intros Hl. destruct (select_entry parts cat tor c h l Hl) as (l' & _ & _ & E).
  by eexists.
Qed.

Lemma toggle_off_absent parts cat tor c h l :
  l ∈ parts →
  selectedParts (updateSelectedParts parts cat tor false (c, h)).1
    !! getUKey c cat tor (h l) = None.
Proof.
  intros Hl. rewrite toggle_off_lookup, decide_True; [done|].
  by apply (list_elem_of_fmap_2 (λ l, getUKey c cat tor (h l))).
Qed.

(** X9 — [onPartSelectionChanged] on a category with a repair-type list
    toggles the whole cell: the part and every part of the lists handed over
    answer [isSelected] with the new checkbox value, and the emitted
    [categoryChecked] is a boolean.  After checking it is true exactly when
    the key of every part the category lists, taken under the repair-type
    that lists it, is one of the toggled keys (which are taken under the
    event's repair-type id) or was selected before.  After unchecking it is
    true exactly when every such key was selected before and is none of the
    toggled keys. *)
Theorem onPartSelectionChanged_cell (cid title : string) (tors : list TOR)
    (tor : string) (part : loc) (inc exc : list loc) (c : Component) (h : heap) :
  let category := mkCategory cid title (Some tors) in
  let on := onPartSelectionChanged true category tor part (inc, exc) (c, h) in
  let off := onPartSelectionChanged false category tor part (inc, exc) (c, h) in
  let toggled := (fun l => getUKey c cid tor (h l)) <$> part :: inc ++ exc in
  let key := fun t l => getUKey c cid (torId t) (h l) in
  (∀ l, l ∈ part :: inc ++ exc →
     isSelected on.1.1 on.1.2 category tor l = true
     ∧ isSelected off.1.1 off.1.2 category tor l = false)
  ∧ is_Some on.2 ∧ is_Some off.2
  ∧ (on.2 = Some true ↔
     ∀ t, t ∈ tors → ∀ l, l ∈ partsIncluded t ++ partsExcluded t →
       key t l ∈ toggled ∨ is_Some (selectedParts c !! key t l))
  ∧ (off.2 = Some true ↔
     ∀ t, t ∈ tors → ∀ l, l ∈ partsIncluded t ++ partsExcluded t →
       (key t l ∉ toggled) ∧ is_Some (selectedParts c !! key t l)).
Proof.
  intros category on off toggled key.
  unfold on, off, onPartSelectionChanged. cbn [fst snd].
  set (parts := part :: inc ++ exc) in *.
  split; [|split; [|split; [|split]]].
  - intros l Hl. unfold isSelected. rewrite !toggle_key. cbn [categoryId category].
    split.
    + apply bool_decide_eq_true_2. by apply toggle_on_present.
    + apply bool_decide_eq_false_2. rewrite toggle_off_absent by done. by intros [? ?].
  - unfold isAllPartsInCategorySelected, category. cbn [repairTypes]. by eexists.
  - unfold isAllPartsInCategorySelected, category. cbn [repairTypes]. by eexists.
  - unfold category. cbn [categoryId]. rewrite isAll_true_iff.
    pose proof (select_inv_holds cid tor parts c h) as [_ _ _ _ _ Ho _].
    split; intros H t Ht l Hl; specialize (H t Ht l Hl).
    + rewrite toggle_key in H. fold (key t l) in H.
      destruct (decide (key t l ∈ toggled)) as [Hk|Hk]; [by left|right].
      by rewrite <- (Ho _ Hk).
    + rewrite toggle_key. fold (key t l).
      destruct (decide (key t l ∈ toggled)) as [Hk|Hk].
      * apply list_elem_of_fmap in Hk as (l' & -> & Hl').
        by apply toggle_on_present.
      * destruct H as [H|H]; [done|]. by rewrite (Ho _ Hk).
  - unfold category. cbn [categoryId]. rewrite isAll_true_iff.
    split; intros H t Ht l Hl; specialize (H t Ht l Hl).
    + rewrite toggle_key, toggle_off_lookup in H. fold (key t l) toggled in H.
      destruct (decide (key t l ∈ toggled)) as [Hk|Hk]; [by destruct H|done].
    + rewrite toggle_key, toggle_off_lookup. fold (key t l) toggled.
      destruct H as [Hk H]. by rewrite decide_False.
Qed.

(** ** Prices *)

Lemma fold_insert_lookup {A V} (key : A → string) (val : A → V) (l : list A)
    (T : gmap string V) (k : string) :
  fold_left (fun T x => <[key x := val x]> T) l T !! k
  = match last (filter (fun x => key x = k) l) with
    | Some x => Some (val x)
    | None => T !! k
    end.
Proof.
  revert T. induction l as [|x l IH]; intros T; [done|].
  cbn [fold_left]. rewrite IH, filter_cons.
  destruct (decide (key x = k)) as [<-|Hne].
  - rewrite last_cons. destruct (last (filter _ l)); [done|].
    by rewrite lookup_insert_eq.
  - destruct (last (filter _ l)); [done|]. by rewrite lookup_insert_ne.
Qed.

(** X10 — looking up a price: after [updatePricesInfo] on the priced list
    [P], [getCheckedPart] returns the last element of [P] whose own category
    id, repair-type id, part number and [sOS] give the key asked for, and is
    absent when [P] has none; [isChecked] is true exactly when there is
    one. *)
Theorem getCheckedPart_after_overlay (P : list CategorizedPart) (c : Component)
    (h : heap) (category : SNRCategory) (tor : string) (l : loc) :
  let c' := updatePricesInfo (set_partsPrices P c) in
  let k := getUKey c (categoryId category) tor (h l) in
  getCheckedPart c' h category tor l = last (filter (fun p => priceKey c p = k) P)
  ∧ (isChecked c' h category tor l = true ↔ ∃ p, p ∈ P ∧ priceKey c p = k).
Proof.
  intros c' k.
  assert (E : checkedParts c' !! k = last (filter (λ p, priceKey c p = k) P)).
  { unfold c', updatePricesInfo.
    change (partsPrices (set_partsPrices P c)) with P. rewrite overlay_fold.
    change (priceKey (set_checkedParts ∅ (set_partsPrices P c))) with (priceKey c).
    simpl. rewrite (fold_insert_lookup (priceKey c) id).
    destruct (last (filter _ P)); [done|apply lookup_empty]. }
  assert (Hk : getUKey c' (categoryId category) tor (h l) = k).
  { unfold c'. rewrite updatePricesInfo_frame. done. }
  split.
  - unfold getCheckedPart. by rewrite Hk.
  - unfold isChecked. rewrite Hk, E. rewrite bool_decide_eq_true. split.
    + intros [p Hp]. exists p.
      apply last_Some_elem_of, list_elem_of_filter in Hp as [? ?]. done.
    + intros (p & Hp & Hkp).
      destruct (last (filter (λ p, priceKey c p = k) P)) as [p'|] eqn:El;
        [by eexists|].
      apply last_None in El.
      assert (p ∈ filter (λ p, priceKey c p = k) P)
        by (by apply list_elem_of_filter).
      rewrite El in H. by apply elem_of_nil in H.
Qed.

(** X11 — the details payload: [partsWithInfo] has one entry per part; an
    included entry is the checked registry's entry or absent; an excluded
    entry always has quantity 1, either a checked entry with its quantity
    replaced or the bare quantity.  After [qtyChanged] no entry is priced. *)
Theorem partsWithInfo_entries (c : Component) (h : heap) (category : SNRCategory)
    (tor : string) (inc exc : list loc) (q : Z) :
  let pw := partsWithInfo c h category tor (inc, exc) in
  let stale := partsWithInfo (qtyChanged q c) h category tor (inc, exc) in
  List.length pw.1 = List.length inc ∧ List.length pw.2 = List.length exc
  ∧ (∀ i l, inc !! i = Some l →
       pw.1 !! i = Some (checkedParts c !! getUKey c (categoryId category) tor (h l)))
  ∧ (∀ x, x ∈ pw.2 →
       x = OnlyQty 1
       ∨ ∃ k p, checkedParts c !! k = Some p
                ∧ x = WithInfo (mkCategorizedPart (cpCategoryId p) (cpTorId p)
                                  (set_qty (Some 1) (cpPart p))))
  ∧ stale = (replicate (List.length inc) None, replicate (List.length exc) (OnlyQty 1)).
Proof.
  intros pw stale. unfold pw, stale, partsWithInfo. cbn [fst snd].
  split; [by rewrite length_map|]. split; [by rewrite !length_map|].
  split; [|split].
  - intros i l Hi. change (map ?f inc) with (f <$> inc).
    by rewrite list_lookup_fmap, Hi.
  - intros x Hx. change (map ?f (map ?g exc)) with (f <$> (g <$> exc)) in Hx.
    apply list_elem_of_fmap in Hx as (o & -> & Ho).
    apply list_elem_of_fmap in Ho as (l & -> & _).
    unfold getCheckedPart.
    destruct (checkedParts c !! _) as [p|] eqn:E; [right|by left].
    by exists (getUKey c (categoryId category) tor (h l)), p.
  - unfold getCheckedPart. simpl. f_equal.
    + induction inc as [|l inc IH]; [done|]. simpl. by rewrite IH, lookup_empty.
    + induction exc as [|l exc IH]; [done|]. simpl. by rewrite IH, lookup_empty.
Qed.

(** ** [ngOnChanges] *)

Lemma bulkToggle_frame checked cid tors c h :
  (bulkToggle checked cid tors (c, h)).1
  = set_selectedParts (selectedParts (bulkToggle checked cid tors (c, h)).1) c.
Proof.
  destruct checked.
  - apply (bulk_on_inv cid tors c h).
  - apply (bulk_off_inv cid tors c h).
Qed.

Lemma changeSelection_frame checked category c h s' :
  changeSelectionOnPartsInCategory checked category (c, h) = Some s' →
  s'.1 = set_selectedParts (selectedParts s'.1) c.
Proof.
  unfold changeSelectionOnPartsInCategory.
  destruct (repairTypes category) as [tors|]; [|done].
  intros [= <-]. apply (bulkToggle_frame checked (categoryId category) tors c h).
Qed.

(** X12 — a catalog change resets and rebuilds: when [ngOnChanges] sees
    changed categories (and the input holds the list [cats], none of whose
    category and repair-type ids is a property name inherited from
    [Object.prototype]), the matrix and
    the columns afterwards are those built from [cats] alone, the checked
    registry is empty, or holds exactly the current prices when prices
    changed in the same call, and without a category selection the call
    succeeds with an empty selected registry. *)
Theorem ngOnChanges_catalog_change (changes : SimpleChanges)
    (sel : option (bool * SNRCategory)) (cats : list SNRCategory)
    (c : Component) (h : heap) :
  changed (chCategories changes) = true →
  categories c = Some cats →
  safe_catalog cats = true →
  (∀ s', ngOnChanges changes sel (c, h) = Some s' →
     partsMatrix s'.1 = Some (fold_left matrix_step (catalog_pairs cats) [])
     ∧ torColumns s'.1
       = Some (sort_columns (fold_left matrix_step (catalog_pairs cats) []))
     ∧ (changed (chPartsPrices changes) = false → checkedParts s'.1 = ∅)
     ∧ (changed (chPartsPrices changes) = true →
        ∀ k, checkedParts s'.1 !! k
             = last (filter (fun p => priceKey c p = k) (partsPrices c))))
  ∧ (changed (chCategorySelection changes) = false →
     ∃ s', ngOnChanges changes sel (c, h) = Some s' ∧ selectedParts s'.1 = ∅).
Proof.
  intros Hch Hcats Hsafe. unfold ngOnChanges. rewrite Hch. cbn [fst snd].
  destruct (createPartsMatrix_Some cats (clearSelections c) h Hcats Hsafe)
    as (c1 & Hg & E1). rewrite E1. clear E1. cbn [fst snd].
  set (m := fold_left matrix_step (catalog_pairs cats) []) in *.
  set (c2 := set_torColumns (Some (sort_columns m)) (set_partsMatrix (Some m) c1)).
  set (h2 := fold_left mark_step (catalog_pairs cats) h).
  destruct Hg as [Hg1 Hg2 Hg3 Hg4 Hg5 Hg6 Hg7 _ _]. simpl in Hg2, Hg3, Hg6, Hg7.
  set (s2 := if changed (chPartsPrices changes)
             then (updatePricesInfo c2, h2) else (c2, h2)).
  assert (Hs2 : partsMatrix s2.1 = Some m ∧ torColumns s2.1 = Some (sort_columns m)
                ∧ selectedParts s2.1 = ∅
                ∧ (changed (chPartsPrices changes) = false → checkedParts s2.1 = ∅)
                ∧ (changed (chPartsPrices changes) = true →
                   ∀ k, checkedParts s2.1 !! k
                        = last (filter (λ p, priceKey c p = k) (partsPrices c)))).
  { unfold s2. destruct (changed (chPartsPrices changes)).
    - cbn [fst]. rewrite updatePricesInfo_frame. simpl.
      split; [done|]. split; [done|]. split; [done|]. split; [done|].
      intros _ k. unfold updatePricesInfo. rewrite overlay_fold. simpl.
      rewrite Hg2. rewrite (fold_insert_lookup (priceKey c2) id).
      assert (Hpk : ∀ p, priceKey c2 p = priceKey c p).
      { intros p. unfold priceKey, getUKey. simpl. by rewrite Hg3. }
      rewrite (list_filter_iff (λ p, priceKey c2 p = k) (λ p, priceKey c p = k))
        by (intros p; by rewrite Hpk).
      destruct (last (filter _ (partsPrices c))); [done|apply lookup_empty].
    - simpl. by rewrite Hg6, Hg7. }
  destruct Hs2 as (Hm & Hcols & Hsel & Hno & Hyes). destruct s2 as [c3 h3].
  cbn [fst] in *. split.
  - intros s'. destruct (changed (chCategorySelection changes)).
    + destruct sel as [[checked category]|]; [|done].
      intros Hs'. apply changeSelection_frame in Hs'. rewrite Hs'. done.
    + by intros [= <-].
  - intros ->. by eexists.
Qed.

Lemma ngOnChanges_catalog_change_witness :
  let h : heap := fun _ => mkPart "P1" "A" None None in
  let cats := [mkCategory "C1" "c" (Some [mkTOR "T1" "t" [1%nat] []])] in
  let c := set_categories (Some cats)
             (updateSelectedParts [1%nat] "C1" "T1" true (newComponent "k", h)).1 in
  let changes := mkChanges (Some (mkChange (Some cats))) None None in
  ∃ s', ngOnChanges changes None (c, h) = Some s' ∧ selectedParts s'.1 = ∅.
Proof.
  intros h cats c changes.
  exact (proj2 (ngOnChanges_catalog_change changes None cats c h eq_refl eq_refl
                  eq_refl) eq_refl).
Defined.

Lemma bulk_on_fully cid title tors c h :
  isAllPartsInCategorySelected (bulkToggle true cid tors (c, h)).1
    (bulkToggle true cid tors (c, h)).2 (mkCategory cid title (Some tors)) = Some true.
Proof.
  destruct (bulk_on_inv cid tors c h) as (Hf & Hi & _ & Hin & _).
  apply isAll_true_iff. intros t Ht l Hl.
  rewrite (getUKey_same_ident cid (torId t) c _ (h l) _ (f_equal uKeyPrefix Hf) (Hi l)).
  destruct (Hin (getUKey c cid (torId t) (h l))) as (e & He & _).
  - apply elem_of_category_keys. by exists t, l.
  - by eexists.
Qed.

(** X13 — quantities do not survive a catalog change: when [ngOnChanges]
    sees changed categories (a list none of whose category and repair-type
    ids is a property name inherited from [Object.prototype]) together with
    a category selection that checks a category, the call succeeds, the category is fully selected afterwards,
    and every entry of the selected registry belongs to that category and has
    quantity 1, whatever was selected before. *)
Theorem ngOnChanges_catalog_and_selection (changes : SimpleChanges)
    (cid title : string) (tors : list TOR) (cats : list SNRCategory)
    (c : Component) (h : heap) :
  changed (chCategories changes) = true →
  changed (chCategorySelection changes) = true →
  categories c = Some cats →
  safe_catalog cats = true →
  let category := mkCategory cid title (Some tors) in
  ∃ s', ngOnChanges changes (Some (true, category)) (c, h) = Some s'
  ∧ isAllPartsInCategorySelected s'.1 s'.2 category = Some true
  ∧ (∀ k e, selectedParts s'.1 !! k = Some e →
       cpCategoryId e = cid ∧ qty (cpPart e) = Some 1).
Proof.
  intros Hch Hsel Hcats Hsafe category. unfold ngOnChanges. rewrite Hch, Hsel.
  cbn [fst snd].
  destruct (createPartsMatrix_frame (clearSelections c) h) as (_ & Hs1 & _).
  destruct (createPartsMatrix_Some cats (clearSelections c) h Hcats Hsafe)
    as (c0 & _ & E1). rewrite E1 in Hs1 |- *. clear E1.
  set (c1 := set_torColumns _ _) in *. set (h1 := fold_left mark_step _ h).
  clearbody c1 h1. cbn [fst snd] in *.
  set (s2 := if changed (chPartsPrices changes)
             then (updatePricesInfo c1, h1) else (c1, h1)).
  assert (Hs2 : selectedParts s2.1 = ∅).
  { unfold s2. destruct (changed (chPartsPrices changes)); [|done].
    cbn [fst]. by rewrite updatePricesInfo_frame. }
  destruct s2 as [c2 h2]. cbn [fst] in Hs2.
  exists (bulkToggle true cid tors (c2, h2)). split; [done|].
  split; [apply bulk_on_fully|].
  destruct (bulk_on_inv cid tors c2 h2) as (_ & _ & _ & Hin & Hout).
  intros k e He.
  destruct (decide (k ∈ category_keys c2 h2 cid tors)) as [Hk|Hk].
  - destruct (Hin k Hk) as (e' & He' & Hc & Hq). rewrite He in He'.
    injection He' as <-. split; [done|]. rewrite Hq. unfold recorded_qty.
    by rewrite Hs2, lookup_empty.
  - rewrite (Hout k Hk), Hs2, lookup_empty in He. done.
Qed.

Lemma ngOnChanges_catalog_and_selection_witness :
  let h : heap := fun _ => mkPart "P1" "A" None None in
  let category := mkCategory "C1" "c" (Some [mkTOR "T1" "t" [1%nat] []]) in
  let c := set_categories (Some [category])
             (qtyChanged 7
                (updateSelectedParts [1%nat] "C1" "T1" true (newComponent "k", h)).1) in
  let changes := mkChanges (Some (mkChange (Some [category]))) None
                   (Some (mkChange (Some (true, category)))) in
  ∃ s', ngOnChanges changes (Some (true, category)) (c, h) = Some s'
  ∧ isAllPartsInCategorySelected s'.1 s'.2 category = Some true
  ∧ (∀ k e, selectedParts s'.1 !! k = Some e →
       cpCategoryId e = "C1" ∧ qty (cpPart e) = Some 1).
Proof.
  intros h category c changes.
  exact (ngOnChanges_catalog_and_selection changes "C1" "c"
           [mkTOR "T1" "t" [1%nat] []] [category] c h eq_refl eq_refl eq_refl
           eq_refl).
Defined.

(** ** The id tables and the shape of the matrix *)

Lemma cat_insert_fold cats T :
  fold_left cat_insert cats T
  = fold_left (fun T x => <[categoryId x := (categoryId x, categoryTitle x)]> T)
      (filter has_repairTypes cats) T.
Proof.
  revert T. induction cats as [|x cats IH]; intros T; [done|].
  cbn [fold_left]. rewrite filter_cons, IH. unfold cat_insert at 1.
  destruct (decide (has_repairTypes x)) as [[rts E]|Hn].
  - by rewrite E.
  - apply eq_None_not_Some in Hn. by rewrite Hn.
Qed.

Lemma sort_columns_built cats t :
  t ∈ sort_columns (fold_left matrix_step (catalog_pairs cats) []) ↔ t ∈ tor_ids cats.
Proof.
  rewrite sort_columns_eq, js_sort_perm, Object_keys_perm, built_matrix_keys.
  apply elem_of_encounter_order.
Qed.

(** X14 — the id tables after a build from a catalog none of whose category
    and repair-type ids is a property name inherited from [Object.prototype]:
    [torsById] and [categoriesById] map
    every id of the catalog to the id and title of its last listing
    (categories without repair-types are not recorded) and keep their
    previous entry for every other id; every column and every category of a
    matrix cell has its entry, so a title lookup for a displayed cell never
    misses. *)
Theorem id_tables_after_build (cats : list SNRCategory) (c : Component) (h : heap) :
  safe_catalog cats = true →
  let r := Build (Some cats) (c, h) in
  (∀ t, torsById r.1 !! t
        = match last (filter (fun p => torId p.2 = t) (catalog_pairs cats)) with
          | Some p => Some (torId p.2, torTitle p.2)
          | None => torsById c !! t
          end)
  ∧ (∀ cid, categoriesById r.1 !! cid
            = match last (filter (fun x => categoryId x = cid)
                            (filter has_repairTypes cats)) with
              | Some x => Some (categoryId x, categoryTitle x)
              | None => categoriesById c !! cid
              end)
  ∧ (∀ cols t, torColumns r.1 = Some cols → t ∈ cols → is_Some (torsById r.1 !! t))
  ∧ (∀ m t cid cell, partsMatrix r.1 = Some m → cell_at m t cid = Some cell →
       is_Some (categoriesById r.1 !! cid)).
Proof.
  intros Hsafe r. unfold r, Build. cbn [fst snd].
  rewrite (createPartsMatrix_exact cats (set_categories (Some cats) c) h eq_refl Hsafe).
  cbn [fst snd]. simpl.
  assert (Ht : ∀ t, fold_left tor_insert (catalog_pairs cats) (torsById c) !! t
            = match last (filter (λ p, torId p.2 = t) (catalog_pairs cats)) with
              | Some p => Some (torId p.2, torTitle p.2)
              | None => torsById c !! t
              end).
  { intros t. apply (fold_insert_lookup (λ p, torId p.2) (λ p, (torId p.2, torTitle p.2))). }
  assert (Hc : ∀ cid, fold_left cat_insert cats (categoriesById c) !! cid
            = match last (filter (λ x, categoryId x = cid)
                            (filter has_repairTypes cats)) with
              | Some x => Some (categoryId x, categoryTitle x)
              | None => categoriesById c !! cid
              end).
  { intros cid. rewrite cat_insert_fold.
    apply (fold_insert_lookup categoryId (λ x, (categoryId x, categoryTitle x))). }
  split; [exact Ht|]. split; [exact Hc|]. split.
  - intros cols t [= <-] Hin. apply sort_columns_built in Hin.
    apply list_elem_of_fmap in Hin as (p & -> & Hp). rewrite Ht.
    destruct (last (filter (λ p0, torId p0.2 = torId p.2) (catalog_pairs cats)))
      as [p'|] eqn:El; [by eexists|].
    apply last_None in El.
    assert (p ∈ filter (λ p0, torId p0.2 = torId p.2) (catalog_pairs cats))
      by (by apply list_elem_of_filter).
    rewrite El in H. by apply elem_of_nil in H.
  - intros m t cid cell [= <-]. rewrite cell_at_fold.
    destruct (last (filter (at_cell t cid) (catalog_pairs cats))) as [p|] eqn:El;
      [|done].
    intros _. apply last_Some_elem_of, list_elem_of_filter in El as [[_ Hid] Hp].
    apply elem_of_catalog_pairs in Hp as (category & rts & Hin & Hrts & _ & Hk).
    rewrite Hc.
    destruct (last (filter (λ x, categoryId x = cid) (filter has_repairTypes cats)))
      as [x|] eqn:El2; [by eexists|].
    apply last_None in El2.
    assert (category ∈ filter (λ x, categoryId x = cid) (filter has_repairTypes cats)).
    { apply list_elem_of_filter. split; [congruence|].
      apply list_elem_of_filter. split; [by eexists|done]. }
    rewrite El2 in H. by apply elem_of_nil in H.
Qed.

Lemma id_tables_after_build_witness :
  let h : heap := fun _ => mkPart "P1" "A" None None in
  let cats := [mkCategory "C1" "Engine" (Some [mkTOR "T1" "Overhaul" [1%nat] []]);
               mkCategory "C2" "Gearbox" None;
               mkCategory "C1" "Motor" (Some [mkTOR "T1" "Repair" [] [2%nat]])] in
  let r := Build (Some cats) (newComponent "k", h) in
  torsById r.1 !! "T1" = Some ("T1", "Repair")
  ∧ categoriesById r.1 !! "C1" = Some ("C1", "Motor")
  ∧ categoriesById r.1 !! "C2" = None.
Proof.
  intros h cats r.
  destruct (id_tables_after_build cats (newComponent "k") h eq_refl)
    as (Ht & Hc & _).
  split; [exact (Ht "T1")|]. split; [exact (Hc "C1")|exact (Hc "C2")].
Defined.

Lemma fold_insert_twice {A V} (key : A → string) (val : A → V) (l : list A)
    (T : gmap string V) :
  fold_left (fun T x => <[key x := val x]> T) l
    (fold_left (fun T x => <[key x := val x]> T) l T)
  = fold_left (fun T x => <[key x := val x]> T) l T.
Proof.
  apply map_eq. intros k. rewrite !fold_insert_lookup.
  by destruct (last (filter (λ x, key x = k) l)).
Qed.

(** X15 — building twice from the same catalog, none of whose category and
    repair-type ids is a property name inherited from [Object.prototype], is
    the same as building once: the second build leaves the whole component as the first left it
    and every part record as it was. *)
Theorem Build_idempotent (cats : list SNRCategory) (c : Component) (h : heap) :
  safe_catalog cats = true →
  let s1 := Build (Some cats) (c, h) in
  let s2 := Build (Some cats) s1 in
  s2.1 = s1.1 ∧ ∀ l, s2.2 l = s1.2 l.
Proof.
  intros Hsafe s1 s2. unfold s2, s1, Build. cbn [fst snd].
  rewrite (createPartsMatrix_exact cats (set_categories (Some cats) c) h eq_refl Hsafe).
  cbn [fst snd].
  erewrite (createPartsMatrix_exact cats); [|reflexivity|exact Hsafe].
  generalize (fold_left matrix_step (catalog_pairs cats) []). intros m.
  generalize (sort_columns m). intros cols.
  cbn [fst snd torsById categoriesById set_categories set_torColumns
       set_partsMatrix set_torsById set_categoriesById categories partsPrices
       uKeyPrefix torColumns partsMatrix selectedParts checkedParts].
  split.
  - assert (H2 : ∀ T, fold_left tor_insert (catalog_pairs cats)
                         (fold_left tor_insert (catalog_pairs cats) T)
                       = fold_left tor_insert (catalog_pairs cats) T).
    { intros T.
      apply (fold_insert_twice (λ p, torId p.2) (λ p, (torId p.2, torTitle p.2))). }
    assert (H1 : ∀ T, fold_left cat_insert cats (fold_left cat_insert cats T)
                      = fold_left cat_insert cats T).
    { intros T. rewrite !cat_insert_fold. apply fold_insert_twice. }
    rewrite H1, H2. reflexivity.
  - intros l. rewrite !mark_fold, !mark_lookup.
    destruct (decide (l ∈ excluded_locs (catalog_pairs cats))); [|done].
    by destruct (h l).
Qed.

Lemma Build_idempotent_witness :
  let h : heap := fun _ => mkPart "P1" "A" None None in
  let cats := [mkCategory "C1" "Engine" (Some [mkTOR "T1" "Overhaul" [1%nat] [2%nat]])] in
  let s1 := Build (Some cats) (newComponent "k", h) in
  let s2 := Build (Some cats) s1 in
  s2.1 = s1.1 ∧ ∀ l, s2.2 l = s1.2 l.
Proof.
  intros h cats.
  exact (Build_idempotent cats (newComponent "k") h eq_refl).
Defined.

(** X16 — the shape of a matrix built from a catalog none of whose category
    and repair-type ids is a property name inherited from
    [Object.prototype]: no column id appears twice, there is
    one column per distinct repair-type id of the catalog, and every column
    has a row object with at least one category, without duplicate category
    ids, whose size is the column's count. *)
Theorem built_matrix_shape (cats : list SNRCategory) (c : Component) (h : heap) :
  safe_catalog cats = true →
  let r := Build (Some cats) (c, h) in
  ∃ m cols, partsMatrix r.1 = Some m ∧ torColumns r.1 = Some cols
  ∧ NoDup cols
  ∧ List.length cols = size (list_to_set (C := gset string) (tor_ids cats))
  ∧ (∀ t, t ∈ cols →
       ∃ row, obj_get m t = Some row ∧ NoDup row.*1
              ∧ List.length row = category_count cats t
              ∧ (1 ≤ category_count cats t)%nat).
Proof.
  intros Hsafe r. unfold r, Build. cbn [fst snd].
  rewrite (createPartsMatrix_exact cats (set_categories (Some cats) c) h eq_refl Hsafe).
  cbn [fst snd]. simpl.
  set (m := fold_left matrix_step (catalog_pairs cats) []).
  exists m, (sort_columns m). split; [done|]. split; [done|].
  assert (Hperm : sort_columns m ≡ₚ encounter_order (tor_ids cats)).
  { unfold m. by rewrite sort_columns_eq, js_sort_perm, Object_keys_perm,
      built_matrix_keys. }
  split; [rewrite Hperm; apply encounter_order_NoDup|].
  split; [by rewrite Hperm, length_encounter_order|].
  intros t Ht. apply sort_columns_built in Ht.
  assert (Hkey : t ∈ m.*1)
    by (unfold m; rewrite built_matrix_keys; by apply elem_of_encounter_order).
  apply obj_get_is_Some in Hkey as [row Hrow]. exists row. split; [done|].
  assert (Hrk : row.*1 = encounter_order
            (fst <$> filter (λ p, torId p.2 = t) (catalog_pairs cats))).
  { pose proof (matrix_row_fold (catalog_pairs cats) [] t) as H.
    fold m in H. unfold row_of in H at 1. rewrite Hrow in H. simpl in H.
    rewrite H. change (row_of [] t).*1 with (@nil string). apply fold_add_key_nil. }
  assert (Hlen : List.length row = category_count cats t).
  { rewrite <- (length_fmap fst), Hrk. apply length_encounter_order. }
  split; [rewrite Hrk; apply encounter_order_NoDup|]. split; [done|].
  rewrite <- Hlen, <- (length_fmap fst), Hrk.
  apply list_elem_of_fmap in Ht as (p & -> & Hp).
  assert (Hin : p.1 ∈ encounter_order
            (fst <$> filter (λ p0, torId p0.2 = torId p.2) (catalog_pairs cats))).
  { apply elem_of_encounter_order, list_elem_of_fmap_2.
    by apply list_elem_of_filter. }
  revert Hin.
  generalize (encounter_order
    (fst <$> filter (λ p0, torId p0.2 = torId p.2) (catalog_pairs cats))).
  intros [|x xs] Hin; [by apply elem_of_nil in Hin|simpl; lia].
Qed.

Lemma built_matrix_shape_witness :
  let h : heap := fun _ => mkPart "P1" "A" None None in
  let cats := [mkCategory "C1" "Engine" (Some [mkTOR "T1" "Overhaul" [1%nat] []]);
               mkCategory "C2" "Gearbox" (Some [mkTOR "T1" "Overhaul" [] [2%nat]])] in
  let r := Build (Some cats) (newComponent "k", h) in
  ∃ m cols, partsMatrix r.1 = Some m ∧ torColumns r.1 = Some cols
  ∧ NoDup cols
  ∧ List.length cols = size (list_to_set (C := gset string) (tor_ids cats))
  ∧ (∀ t, t ∈ cols →
       ∃ row, obj_get m t = Some row ∧ NoDup row.*1
              ∧ List.length row = category_count cats t
              ∧ (1 ≤ category_count cats t)%nat).
Proof.
  intros h cats.
  exact (built_matrix_shape cats (newComponent "k") h eq_refl).
Defined.

(** ** Independence of selectable units *)

(** X17 — a toggle never changes the selection status of another unit:
    when the ids and part numbers involved contain no underscore and a part
    differs from every toggled part in category id, repair-type id, part
    number or [sOS], its [isSelected] answer is the same before and after. *)
Theorem toggle_leaves_other_units (parts : list loc) (cat tor : string)
    (checked : bool) (c : Component) (h : heap) (category' : SNRCategory)
    (tor' : string) (l' : loc) :
  no_underscore cat = true → no_underscore tor = true →
  no_underscore (categoryId category') = true → no_underscore tor' = true →
  no_underscore (partNumber (h l')) = true →
  (∀ l, l ∈ parts →
     no_underscore (partNumber (h l)) = true
     ∧ (cat, tor, partNumber (h l), sOS (h l))
       ≠ (categoryId category', tor', partNumber (h l'), sOS (h l'))) →
  let s' := updateSelectedParts parts cat tor checked (c, h) in
  isSelected s'.1 s'.2 category' tor' l' = isSelected c h category' tor' l'.
Proof.
  intros Hc Ht Hc' Ht' Hp' Hparts s'. unfold s', isSelected. rewrite toggle_key.
  set (k := getUKey c (categoryId category') tor' (h l')).
  assert (Hk : k ∉ (λ l, getUKey c cat tor (h l)) <$> parts).
  { intros (l & Hkl & Hl)%list_elem_of_fmap. destruct (Hparts l Hl) as [Hp Hne].
    apply Hne. symmetry in Hkl.
    destruct (getUKey_inj c cat tor (categoryId category') tor' (h l) (h l')
                Hc Ht Hp Hc' Ht' Hp' Hkl) as (-> & -> & -> & ->). done. }
  f_equal. destruct checked.
  - pose proof (select_inv_holds cat tor parts c h) as [_ _ _ _ _ Ho _].
    by rewrite (Ho k Hk).
  - by rewrite toggle_off_lookup, decide_False.
Qed.

Lemma toggle_leaves_other_units_witness :
  let h : heap := fun l =>
    if decide (l = 1%nat) then mkPart "P1" "A" None None
    else mkPart "P2" "B" None None in
  let category := mkCategory "C1" "c" None in
  let c := (updateSelectedParts [2%nat] "C1" "T1" true (newComponent "k", h)).1 in
  let s' := updateSelectedParts [1%nat] "C1" "T1" false (c, h) in
  isSelected s'.1 s'.2 category "T1" 2%nat = isSelected c h category "T1" 2%nat.
Proof.
  intros h category c.
  apply (toggle_leaves_other_units [1%nat] "C1" "T1" false c h category "T1" 2%nat);
    try reflexivity.
  intros l ->%list_elem_of_singleton. split; [reflexivity|discriminate].
Defined.
